(** * A model of the document-translation pipeline of [main.py]

    The development follows the source file top to bottom: the string
    primitives the code relies on, the filesystem and logging effects,
    then [find_doc_files], [save_translated_file], [sync_directories],
    [log_translate_progress], [translate_file] and [main].  Properties
    are stated and proved after the definitions.

    Outside the model: the text of the system prompt, the model name, the
    base URL and the sampling temperature (the endpoint is a function of
    the user message), the traceback printed by [print_exc], symbolic
    links, and exceptions that are not subclasses of [Exception].  The
    input tree and the output tree are taken to be disjoint. *)

From Stdlib Require Import ZArith NArith Ascii String.
From stdpp Require Import base option list gmap.

Local Open Scope list_scope.
#[local] Set Warnings "-register-all".

(** ** Python text

  A Python [str] is a sequence of code points; a code point is an [N]. *)

Definition str := list N.

(** Literals: every character of an ASCII literal is its code point. *)
Definition u (s : string) : str := map N_of_ascii (list_ascii_of_string s).

Definition nl : N := 10%N.

Module Str.

(** The characters [str.strip()] removes (CPython's Unicode whitespace:
    U+0009..000D, U+001C..0020, U+0085, U+00A0, U+1680, U+2000..200A,
    U+2028, U+2029, U+202F, U+205F, U+3000). *)
Definition isspace (c : N) : bool :=
  (((9 <=? c) && (c <=? 13)) || ((28 <=? c) && (c <=? 32))
   || (c =? 133) || (c =? 160) || (c =? 5760)
   || ((8192 <=? c) && (c <=? 8202))
   || (c =? 8232) || (c =? 8233) || (c =? 8239) || (c =? 8287)
   || (c =? 12288))%N.

Fixpoint lstrip (s : str) : str :=
  match s with
  | c :: s' => if isspace c then lstrip s' else s
  | [] => []
  end.

Definition rstrip (s : str) : str := rev (lstrip (rev s)).

Definition strip (s : str) : str := rstrip (lstrip s).

Fixpoint startswith (s p : str) {struct p} : bool :=
  match p, s with
  | [], _ => true
  | _ :: _, [] => false
  | a :: p', b :: s' => (a =? b)%N && startswith s' p'
  end.

Definition endswith (s p : str) : bool := startswith (rev s) (rev p).

(** [find_split sep s]: the text before and after the first occurrence
    of [sep] in [s], when there is one. *)
Fixpoint find_split (sep s : str) : option (str * str) :=
  if startswith s sep then Some ([], drop (length sep) s)
  else match s with
       | [] => None
       | c :: s' =>
           match find_split sep s' with
           | Some (h, t) => Some (c :: h, t)
           | None => None
           end
       end.

(** [s.split(sep, 1)] *)
Definition split1 (sep s : str) : list str :=
  match find_split sep s with
  | Some (h, t) => [h; t]
  | None => [s]
  end.

(** [s.rsplit(sep, 1)]: the same at the last occurrence. *)
Definition rsplit1 (sep s : str) : list str :=
  match find_split (rev sep) (rev s) with
  | Some (t, h) => [rev h; rev t]
  | None => [s]
  end.

(** [sep.join(parts)] *)
Fixpoint join (sep : str) (parts : list str) : str :=
  match parts with
  | [] => []
  | [p] => p
  | p :: ps => p ++ sep ++ join sep ps
  end.

End Str.

(** ** Paths

    A path is the list of its components below a root: a source path is
    read below [input_dir], an output path below [output_dir], so that
    [file_path.relative_to(input_dir)] is the component list itself and
    [output_dir / relative_path] is the same list read in the output tree.
    The empty list is the root directory. *)

Definition path := list str.

Module Path.

(** [Path.parent] (the root is its own parent) *)
Definition parent (p : path) : path := removelast p.

(** [Path.name] *)
Definition name (p : path) : str := List.last p [].

(** [Path.as_posix()] *)
Definition as_posix (p : path) : str := Str.join (u "/") p.

(** [str.rfind(c)]: index of the last occurrence, -1 when there is none. *)
Fixpoint rfind_from (c : N) (s : str) (i acc : Z) : Z :=
  match s with
  | [] => acc
  | x :: s' => rfind_from c s' (i + 1)%Z (if (x =? c)%N then i else acc)
  end.

Definition rfind (c : N) (s : str) : Z := rfind_from c s 0%Z (-1)%Z.

(** [PurePath.suffix], on the final component:
      i = name.rfind('.')
      if 0 < i < len(name) - 1: return name[i:]  else: return ''   *)
Definition suffix (nm : str) : str :=
  let i := rfind 46%N nm in
  if ((0 <? i) && (i <? Z.of_nat (length nm) - 1))%Z
  then drop (Z.to_nat i) nm else [].

(** All the ancestors of a path, the root first, the path itself last. *)
Definition ancestors (p : path) : list path :=
  map (λ n, take n p) (seq 0 (S (length p))).

End Path.

(** ** Exceptions, log records and the external world *)

Inductive exception :=
| ValueError (msg : string)
| IndexError (msg : string)
| OSError (msg : string)
| APIError (msg : string).

(** [except (ValueError, IndexError)] *)
Definition value_or_index (e : exception) : bool :=
  match e with
  | ValueError _ | IndexError _ => true
  | _ => false
  end.

(** One streamed chunk: [chunk.choices[0].delta.content]. *)
Record Delta := { content : option str }.
Record Choice := { delta : option Delta }.
Record Chunk := { choices : list Choice }.

Inductive level := DEBUG | INFO | WARNING | ERROR.

(** The texts the program logs, by the place that formats them. *)
Inductive message :=
| MsgUnparsable (name : str)                    (* save_translated_file, warning *)
| MsgSaveError (p : path) (e : exception)       (* save_translated_file, error *)
| MsgSync                                       (* sync_directories *)
| MsgSkipped (name : str)                       (* translate_file, output exists *)
| MsgChunk (c : Chunk)                          (* translate_file, per chunk *)
| MsgTranslated (name : str)                    (* translate_file, success *)
| MsgTranslateError (name : str) (e : exception)(* translate_file, failure *)
| MsgNoApiKey
| MsgNotADirectory
| MsgNothingFound
| MsgFound (total : Z)
| MsgClientInit (e : exception)
| MsgUncaught (name : str) (e : exception)      (* main, as_completed loop *)
| MsgAllDone.

(** [lg.log(level, text)]; a progress line is "[index/total] text". *)
Inductive log_record :=
| Plain (lv : level) (m : message)
| Progress (lv : level) (index total : Z) (m : message).

(** Nodes of the output tree and of the input tree. *)
Inductive node := NDir | NFile (data : str).

Inductive tree := TFile (data : str) | TDir (entries : list (str * tree)).

(** Operations of the operating system that can fail for reasons outside
    the state modelled here (permissions, full disk, undecodable bytes,
    unencodable text). *)
Inductive op :=
| OpStat (p : path)
| OpMkdir (p : path)
| OpWrite (p : path) (data : str)
| OpCopy (p : path)
| OpRead (p : path).

(** The mutable state of a run: the output tree, the log sink, the
    function attribute [log_translate_progress._index], and the user
    messages sent to the chat endpoint so far. *)
Record World := mkWorld {
  dst : gmap path node;
  logs : list log_record;
  _index : Z;
  api_calls : list str
}.

(** What the run cannot control: the input tree (as [input_dir] finds it),
    failures of system calls, the client constructor, the endpoint's
    stream for a user message (chunks, then possibly an exception), and
    the order in which the pool completes the submitted items. *)
Record Env := mkEnv {
  src : option tree;
  fault : op → option exception;
  client_init : option exception;
  api : str → list Chunk * option exception;
  completion_order : list path → list path
}.

Definition set_dst (d : gmap path node) (w : World) : World :=
  mkWorld d (logs w) (_index w) (api_calls w).
Definition add_log (r : log_record) (w : World) : World :=
  mkWorld (dst w) (logs w ++ [r]) (_index w) (api_calls w).
Definition set_index (i : Z) (w : World) : World :=
  mkWorld (dst w) (logs w) i (api_calls w).
Definition add_api_call (req : str) (w : World) : World :=
  mkWorld (dst w) (logs w) (_index w) (api_calls w ++ [req]).

(** ** Computations: state that survives an exception *)

Definition M (A : Type) : Type := World → (exception + A) * World.

#[export] Instance M_ret : MRet M := λ A a w, (inr a, w).
#[export] Instance M_bind : MBind M := λ A B k m w,
  match m w with
  | (inr a, w') => k a w'
  | (inl e, w') => (inl e, w')
  end.

Definition raise {A} (e : exception) : M A := λ w, (inl e, w).

(** [try: m  except <handles>: h] *)
Definition try_except {A} (m : M A) (handles : exception → bool)
    (h : exception → M A) : M A := λ w,
  match m w with
  | (inl e, w') => if handles e then h e w' else (inl e, w')
  | r => r
  end.

Definition any_exception (e : exception) : bool := true.

(** A pure step that may raise. *)
Definition lift {A} (r : exception + A) : M A := λ w, (r, w).

Definition lg (lv : level) (m : message) : M unit :=
  λ w, (inr tt, add_log (Plain lv m) w).

(** [for x in l: body(x)] *)
Fixpoint for_each {A} (l : list A) (body : A → M unit) : M unit :=
  match l with
  | [] => mret tt
  | x :: l' => body x ;; for_each l' body
  end.

(** [lst[i]] *)
Definition item {A} (l : list A) (i : nat) : exception + A :=
  match l !! i with
  | Some x => inr x
  | None => inl (IndexError "list index out of range")
  end.

(** ** The input tree *)

Definition is_tdir (t : tree) : bool :=
  match t with TDir _ => true | TFile _ => false end.

Fixpoint assoc (n : str) (es : list (str * tree)) : option tree :=
  match es with
  | [] => None
  | (m, t) :: es' => if bool_decide (m = n) then Some t else assoc n es'
  end.

Fixpoint tree_lookup (p : path) (t : tree) : option tree :=
  match p with
  | [] => Some t
  | n :: p' =>
      match t with
      | TDir es =>
          match assoc n es with
          | Some c => tree_lookup p' c
          | None => None
          end
      | TFile _ => None
      end
  end.

(** [os.walk(input_dir)], top down: every directory with its entries. *)
Fixpoint walk (root : path) (t : tree) : list (path * list (str * tree)) :=
  match t with
  | TFile _ => []
  | TDir es => (root, es) :: flat_map (λ e, walk (root ++ [e.1]) e.2) es
  end.

(** The [files] of one [os.walk] step: the names that are not directories. *)
Definition files_of (es : list (str * tree)) : list str :=
  map fst (List.filter (λ e, negb (is_tdir e.2)) es).

(** [src_dir.rglob('*')]: every entry below the root, with what it is. *)
Definition rglob (t : tree) : list (path * tree) :=
  flat_map (λ d, map (λ e, (d.1 ++ [e.1], e.2)) d.2) (walk [] t).

(** ** [find_doc_files] *)

(** [any(file.endswith(ext) for ext in extensions)] *)
Definition selected (extensions : list str) (file : str) : bool :=
  existsb (λ ext, Str.endswith file ext) extensions.

(** [src_path.suffix not in extensions], the test of [sync_directories] *)
Definition mirrored (extensions : list str) (name : str) : bool :=
  negb (bool_decide (Path.suffix name ∈ extensions)).

Definition find_doc_files (input_dir : tree) (extensions : list str)
    : list path :=
  flat_map
    (λ d, let '(root, es) := d in
          map (λ file, root ++ [file])
              (List.filter (selected extensions) (files_of es)))
    (walk [] input_dir).

(** ** The response envelope *)

Definition fence : str := u "```".
Definition separator : str := nl :: u "---" ++ [nl].

(** The request of [translate_file]:
    f"FILE_PATH: {relative_path.as_posix()}\n---\n{content}" *)
Definition encode (relative_path : path) (content : str) : str :=
  u "FILE_PATH: " ++ Path.as_posix relative_path ++ separator ++ content.

(** The cleaning of [save_translated_file]: strip, then drop the fence
    lines with [split('\n', 1)[1].rsplit('\n', 1)[0]]. *)
Definition clean (response_text : str) : exception + str :=
  let cleaned_text := Str.strip response_text in
  if Str.startswith cleaned_text fence && Str.endswith cleaned_text fence
  then match item (Str.split1 [nl] cleaned_text) 1 with
       | inr rest => item (Str.rsplit1 [nl] rest) 0
       | inl e => inl e
       end
  else inr cleaned_text.

(** [_header, content = cleaned_text.split('\n---\n', 1)] *)
Definition unpack_body (cleaned_text : str) : exception + str :=
  match Str.split1 separator cleaned_text with
  | [_header; content] => inr content
  | _ => inl (ValueError "not enough values to unpack")
  end.

(** The parsing part of [save_translated_file]'s [try] block. *)
Definition decode (response_text : str) : exception + str :=
  match clean response_text with
  | inr cleaned_text => unpack_body cleaned_text
  | inl e => inl e
  end.

(** One streamed chunk contributes its text when
    [chunk.choices and chunk.choices[0].delta and
     chunk.choices[0].delta.content] is truthy. *)
Definition chunk_text (c : Chunk) : option str :=
  match choices c with
  | ch :: _ =>
      match delta ch with
      | Some d =>
          match content d with
          | Some (x :: s) => Some (x :: s)
          | _ => None
          end
      | None => None
      end
  | [] => None
  end.

(** [for chunk in stream: lg.debug(...); if ...: append] *)
Fixpoint consume (chunks : list Chunk) (stop : option exception)
    (full_response_content : list str) : M (list str) :=
  match chunks with
  | c :: chunks' =>
      lg DEBUG (MsgChunk c) ;;
      consume chunks' stop
        (match chunk_text c with
         | Some s => full_response_content ++ [s]
         | None => full_response_content
         end)
  | [] =>
      match stop with
      | Some e => raise e
      | None => mret full_response_content
      end
  end.

(** ** [log_translate_progress]

    Line 117 reads the attribute and stores the sum; line 118 reads the
    attribute again to format the line. *)

Definition read_index : M Z := λ w, (inr (_index w), w).
Definition write_index (v : Z) : M unit := λ w, (inr tt, set_index v w).
Definition emit_progress (log_level : level) (total_files : Z)
    (content : message) : M unit :=
  λ w, (inr tt, add_log (Progress log_level (_index w) total_files content) w).

Definition log_translate_progress (log_level : level) (total_files : Z)
    (content : message) : M unit :=
  tmp ← read_index;
  write_index (tmp + 1) ;;
  emit_progress log_level total_files content.

(** ** The output tree *)

Definition is_file (d : gmap path node) (p : path) : bool :=
  match d !! p with Some (NFile _) => true | _ => false end.

Definition is_dir (d : gmap path node) (p : path) : bool :=
  match d !! p with Some NDir => true | _ => false end.

Definition make_dirs (d : gmap path node) (p : path) : gmap path node :=
  foldl (λ d q, match d !! q with None => <[q:=NDir]> d | Some _ => d end)
        d (Path.ancestors p).

Section Pipeline.

Context (E : Env).

(** [p.exists()]: pathlib answers False when [stat] fails with "not
    found" and re-raises the other failures (a directory that may not be
    searched); those are the faults of [OpStat]. *)
Definition exists_ (p : path) : M bool := λ w,
  match fault E (OpStat p) with
  | Some e => (inl e, w)
  | None => (inr (bool_decide (is_Some (dst w !! p))), w)
  end.

(** [p.mkdir(parents=True, exist_ok=True)]: raises when the path or one
    of its ancestors is a file, creates what is missing otherwise. *)
Definition mkdir (p : path) : M unit := λ w,
  match fault E (OpMkdir p) with
  | Some e => (inl e, w)
  | None =>
      if existsb (is_file (dst w)) (Path.ancestors p)
      then (inl (OSError "File exists"), w)
      else (inr tt, set_dst (make_dirs (dst w) p) w)
  end.

(** [p.write_text(data, encoding='utf-8')] *)
Definition write_text (p : path) (data : str) : M unit := λ w,
  match fault E (OpWrite p data) with
  | Some e => (inl e, w)
  | None =>
      if is_dir (dst w) (Path.parent p) && negb (is_dir (dst w) p)
      then (inr tt, set_dst (<[p := NFile data]> (dst w)) w)
      else (inl (OSError "cannot open for writing"), w)
  end.

(** [shutil.copy2(src_path, dst_path)] of a source file holding [data] *)
Definition copy2 (data : str) (p : path) : M unit := λ w,
  match fault E (OpCopy p) with
  | Some e => (inl e, w)
  | None =>
      if is_dir (dst w) (Path.parent p) && negb (is_dir (dst w) p)
      then (inr tt, set_dst (<[p := NFile data]> (dst w)) w)
      else (inl (OSError "cannot open for writing"), w)
  end.

(** [file_path.read_text(encoding='utf-8')] *)
Definition read_text (p : path) : M str := λ w,
  match fault E (OpRead p) with
  | Some e => (inl e, w)
  | None =>
      match src E with
      | Some t =>
          match tree_lookup p t with
          | Some (TFile data) => (inr data, w)
          | _ => (inl (OSError "No such file"), w)
          end
      | None => (inl (OSError "No such file"), w)
      end
  end.

(** [client.chat.completions.create(..., stream=True)] *)
Definition create (user_content : str) : M (list Chunk * option exception) :=
  λ w, (inr (api E user_content), add_api_call user_content w).

(** ** [save_translated_file] *)

Definition save_translated_file (response_text : str) (output_path : path)
    : M unit :=
  try_except
    (content ← lift (decode response_text);
     mkdir (Path.parent output_path) ;;
     write_text output_path content)
    any_exception
    (λ e,
       if value_or_index e
       then lg WARNING (MsgUnparsable (Path.name output_path)) ;;
            mkdir (Path.parent output_path) ;;
            write_text output_path response_text
       else lg ERROR (MsgSaveError output_path e)).

(** ** [sync_directories] *)

Definition sync_entry (extensions : list str) (entry : path * tree)
    : M unit :=
  let '(relative_path, src_path) := entry in
  let dst_path := relative_path in
  match src_path with
  | TDir _ => mkdir dst_path
  | TFile data =>
      if mirrored extensions (Path.name relative_path)
      then present ← exists_ dst_path;
           if negb present
           then mkdir (Path.parent dst_path) ;; copy2 data dst_path
           else mret tt
      else mret tt
  end.

Definition sync_directories (src_dir : tree) (extensions : list str)
    : M unit :=
  lg INFO MsgSync ;;
  for_each (rglob src_dir) (sync_entry extensions).

(** ** [translate_file] *)

Definition translate_body (file_path : path) (total_files : Z) : M unit :=
  let relative_path := file_path in
  let output_path := relative_path in
  content ← read_text file_path;
  let user_content := encode relative_path content in
  stream ← create user_content;
  full_response_content ← consume stream.1 stream.2 [];
  let translated_text := concat full_response_content in
  save_translated_file translated_text output_path ;;
  log_translate_progress INFO total_files
    (MsgTranslated (Path.name file_path)).

Definition translate_file (file_path : path) (total_files : Z) : M unit :=
  let relative_path := file_path in
  let output_path := relative_path in
  present ← exists_ output_path;
  if (present : bool)
  then log_translate_progress INFO total_files
         (MsgSkipped (Path.name output_path))
  else try_except (translate_body file_path total_files)
         any_exception
         (λ e, log_translate_progress ERROR total_files
                 (MsgTranslateError (Path.name file_path) e)).

(** ** [main]

    Of the parsed arguments the model keeps the two the control flow
    reads; [input_dir] and [output_dir] are the roots of the two trees.
    The pool runs [translate_file] on every submitted item; the items are
    taken in the order the environment completes them, each one as a
    whole, and the [as_completed] loop logs what escapes an item. *)

Record Args := mkArgs {
  api_key : str;
  extensions : list str
}.

Definition guarded_item (total_files : Z) (file : path) : M unit :=
  try_except (translate_file file total_files)
    any_exception
    (λ exc, lg ERROR (MsgUncaught (Path.name file) exc)).

Definition dispatch (files_to_translate : list path) (total_files : Z)
    : M unit :=
  for_each (completion_order E files_to_translate) (guarded_item total_files).

Definition main (args : Args) : M unit :=
  if bool_decide (api_key args = []) || bool_decide (api_key args = u "...")
  then lg ERROR MsgNoApiKey
  else
    match src E with
    | Some (TDir es) =>
        let input_dir := TDir es in
        sync_directories input_dir (extensions args) ;;
        let files_to_translate := find_doc_files input_dir (extensions args) in
        match files_to_translate with
        | [] => lg INFO MsgNothingFound
        | _ :: _ =>
            let total_files := Z.of_nat (length files_to_translate) in
            lg INFO (MsgFound total_files) ;;
            match client_init E with
            | Some e => lg ERROR (MsgClientInit e)
            | None =>
                dispatch files_to_translate total_files ;;
                lg INFO MsgAllDone
            end
        end
    | _ => lg ERROR MsgNotADirectory
    end.

End Pipeline.

(** ** Overlapping calls of [log_translate_progress]

    A call in flight is at one of the three accesses of the attribute, or
    has returned.  A schedule names, step by step, the call that moves. *)

Record call := mkCall {
  c_level : level;
  c_total : Z;
  c_content : message
}.

Inductive pc := AtRead | AtWrite (tmp : Z) | AtEmit | Returned.

Definition step (t : call * pc) (w : World) : (call * pc) * World :=
  let '(c, k) := t in
  match k with
  | AtRead => ((c, AtWrite (_index w)), w)
  | AtWrite tmp => ((c, AtEmit), set_index (tmp + 1) w)
  | AtEmit =>
      ((c, Returned),
       add_log (Progress (c_level c) (_index w) (c_total c) (c_content c)) w)
  | Returned => (t, w)
  end.

Fixpoint run_schedule (sched : list nat) (ts : list (call * pc)) (w : World)
    : list (call * pc) * World :=
  match sched with
  | [] => (ts, w)
  | i :: sched' =>
      match ts !! i with
      | Some t =>
          let '(t', w') := step t w in
          run_schedule sched' (<[i := t']> ts) w'
      | None => run_schedule sched' ts w
      end
  end.

Definition start (cs : list call) : list (call * pc) :=
  map (λ c, (c, AtRead)) cs.

Definition returned (t : call * pc) : bool :=
  match t.2 with Returned => true | _ => false end.


(** ** Reading the log *)

Definition progress_index (r : log_record) : option Z :=
  match r with
  | Progress _ i _ _ => Some i
  | Plain _ _ => None
  end.

Definition progress_indices (l : list log_record) : list Z :=
  omap progress_index l.

Definition is_progress (r : log_record) : bool :=
  match r with Progress _ _ _ _ => true | Plain _ _ => false end.

Definition progress_records (l : list log_record) : list log_record :=
  List.filter is_progress l.

Definition initial : World := mkWorld ∅ [] 0 [].


(** ** Vocabulary of the statements *)

(** The cleaning in the words of the specification, kept apart from
    [clean], which is the code: trim; if the trimmed text starts and ends
    with the fence, strip the first line and the last line. *)
Definition first_line_dropped (s : str) : str :=
  match Str.find_split [nl] s with
  | Some (_, rest) => rest
  | None => []
  end.

Definition last_line_dropped (s : str) : str :=
  rev (first_line_dropped (rev s)).

Definition cleaned_by_lines (response_text : str) : str :=
  let trimmed := Str.strip response_text in
  if Str.startswith trimmed fence && Str.endswith trimmed fence
  then last_line_dropped (first_line_dropped trimmed)
  else trimmed.

(** [w'] differs from [w] by plain log lines only: no progress line, the
    counter and the requests are those of [w]. *)
Definition plain_step (w w' : World) : Prop :=
  _index w' = _index w ∧
  ∃ l, logs w' = logs w ++ l ∧ progress_records l = [].






(** [header ++ sep ++ body] splits [s] at the first occurrence of [sep]:
    no other split of [s] around [sep] has a shorter left part. *)
Definition first_occurrence (sep s header body : str) : Prop :=
  s = header ++ sep ++ body ∧
  ∀ h' b', s = h' ++ sep ++ b' → length header ≤ length h'.

Definition contains (sep s : str) : Prop := ∃ h t, s = h ++ sep ++ t.

(** ** Sample data

    An environment in which nothing fails and the endpoint answers with an
    empty stream, and the envelope of the specification's example. *)
Definition calm (input : option tree) : Env :=
  mkEnv input (λ _, None) None (λ _, ([], None)) id.

Definition hola_envelope : str :=
  u "FILE_PATH: a/b.md" ++ separator ++ u "Hola".

(** A tree whose only file is named ".md", and an endpoint that answers
    with the user message in one chunk. *)
Definition dotfile_tree : tree := TDir [(u ".md", TFile (u "# Title"))].

Definition echo (req : str) : list Chunk * option exception :=
  ([{| choices := [{| delta := Some {| content := Some req |} |}] |}], None).

Definition default_extensions : list str := [u ".md"; u ".rst"].

(** A small input tree: one document, one image in a directory. *)
Definition small_tree : tree :=
  TDir [(u "a.md", TFile (u "hi"));
        (u "img", TDir [(u "logo.png", TFile (u "PNG"))])].

Definition sample_args : Args := mkArgs (u "key") default_extensions.

Definition one_doc : tree := TDir [(u "a.md", TFile (u "hi"))].


(** The existence check fails (a directory that may not be searched). *)
Definition no_access (o : op) : option exception :=
  match o with
  | OpStat _ => Some (OSError "Permission denied")
  | _ => None
  end.



(** ** Further vocabulary *)

(** A text made of whitespace only (the empty text included). *)
Definition blank (s : str) : Prop := Forall (λ c, Str.isspace c = true) s.

(** A response wrapped in a fence: the opening fence with an optional
    language tag, the inner text on its own lines, the closing fence. *)
Definition fenced (tag inner : str) : str :=
  fence ++ tag ++ [nl] ++ inner ++ [nl] ++ fence.

(** The text [translate_file] joins from a stream: the non-empty contents
    of the chunks, in arrival order. *)
Definition joined (chunks : list Chunk) : str :=
  concat (omap chunk_text chunks).

(** The world once a request was sent and its chunks were consumed: the
    request is recorded and every chunk has its debug line. *)
Definition streamed (req : str) (chunks : list Chunk) (w : World) : World :=
  mkWorld (dst w)
    (logs w ++ map (λ c, Plain DEBUG (MsgChunk c)) chunks)
    (_index w) (api_calls w ++ [req]).

(** No file sits at [p] in the output tree of [w] (the path is free, or
    is a directory). *)
Definition no_file_at (p : path) (w : World) : Prop :=
  ∀ x, dst w !! p ≠ Some (NFile x).

(** An extension of the usual form: a dot, then at least one character,
    none of them a dot (".md", ".rst"). *)
Definition dotted (ext : str) : Prop :=
  ∃ e, ext = 46%N :: e ∧ e ≠ [] ∧ 46%N ∉ e.

(** Calls that have stored their incremented counter, and a count of the
    calls in a given state. *)
Definition wrote (t : call * pc) : bool :=
  match t.2 with AtEmit | Returned => true | _ => false end.

Definition tally (f : call * pc → bool) (ts : list (call * pc)) : nat :=
  length (List.filter f ts).

(** What every interleaving keeps, for a counter that started at [b] and
    a log whose progress indices started as [base]: the counter has grown
    by at most the number of stores, every value read and not yet stored
    is within the same bound, and the calls that returned logged one
    index each, all between [b + 1] and that bound. *)
Definition schedule_inv (b : Z) (base : list Z)
    (ts : list (call * pc)) (w : World) : Prop :=
  let stores := Z.of_nat (tally wrote ts) in
  (b ≤ _index w ≤ b + stores)%Z ∧
  (0 < stores → b + 1 ≤ _index w)%Z ∧
  Forall (λ t, match t.2 with
               | AtWrite tmp => (b ≤ tmp ≤ b + stores)%Z
               | _ => True
               end) ts ∧
  ∃ emitted,
    progress_indices (logs w) = base ++ emitted ∧
    length emitted = tally returned ts ∧
    Forall (λ i, (b + 1 ≤ i ≤ b + stores)%Z) emitted.

(** * Properties *)

Ltac run :=
  unfold mbind, M_bind, mret, M_ret, try_except, lift, raise, lg,
    any_exception in *.

(** ** The primitives on examples *)

Example strip_example : Str.strip (u "  ab c " ++ [nl]) = u "ab c".
Proof. reflexivity. Qed.

Example split1_example : Str.split1 (u "-") (u "a-b-c") = [u "a"; u "b-c"].
Proof. reflexivity. Qed.

Example rsplit1_example : Str.rsplit1 (u "-") (u "a-b-c") = [u "a-b"; u "c"].
Proof. reflexivity. Qed.

Example rsplit1_absent : Str.rsplit1 (u "-") (u "abc") = [u "abc"].
Proof. reflexivity. Qed.

Example suffix_examples :
  Path.suffix (u "a.md") = u ".md" ∧ Path.suffix (u "a.tar.gz") = u ".gz" ∧
  Path.suffix (u ".md") = [] ∧ Path.suffix (u "a.") = [] ∧
  Path.suffix (u "README") = [].
Proof. by split_and!. Qed.

Example decode_fenced :
  decode (fence ++ [nl] ++ hola_envelope ++ [nl] ++ fence) = inr (u "Hola").
Proof. reflexivity. Qed.

Example decode_fence_alone :
  decode (fence ++ fence) = inl (IndexError "list index out of range").
Proof. reflexivity. Qed.

Example find_doc_files_example :
  find_doc_files small_tree default_extensions = [[u "a.md"]] ∧
  map fst (rglob small_tree) = [[u "a.md"]; [u "img"]; [u "img"; u "logo.png"]].
Proof. by split. Qed.

Example main_example :
  let E := mkEnv (Some small_tree) (λ _, None) None echo id in
  let r := main E sample_args initial in
  r.1 = inr tt ∧
  dst r.2 !! [u "a.md"] = Some (NFile (u "hi")) ∧
  dst r.2 !! [u "img"; u "logo.png"] = Some (NFile (u "PNG")) ∧
  progress_records (logs r.2) = [Progress INFO 1 1 (MsgTranslated (u "a.md"))].
Proof. by split_and!. Qed.

(** ** Text primitives *)

Lemma startswith_app p t : Str.startswith (p ++ t) p = true.
Proof.
  induction p as [|a p IH]; simpl; [done|].
  by rewrite N.eqb_refl.
Qed.

Lemma startswith_true s p :
  Str.startswith s p = true → s = p ++ drop (length p) s.
Proof.
  revert s. induction p as [|a p IH]; intros s H; simpl in *.
  - by rewrite drop_0.
  - destruct s as [|b s]; [done|].
    apply andb_prop in H as [Hab Hs]. apply N.eqb_eq in Hab as ->.
    simpl. f_equal. by apply IH.
Qed.

Lemma find_split_eq sep s :
  Str.find_split sep s =
  if Str.startswith s sep then Some ([], drop (length sep) s)
  else match s with
       | [] => None
       | c :: s' =>
           match Str.find_split sep s' with
           | Some (h, t) => Some (c :: h, t)
           | None => None
           end
       end.
Proof. by destruct s. Qed.

Lemma find_split_sound sep s h t :
  Str.find_split sep s = Some (h, t) → s = h ++ sep ++ t.
Proof.
  revert h. induction s as [|c s IH]; intros h; rewrite find_split_eq.
  - destruct (Str.startswith [] sep) eqn:Hs; [|done].
    intros [= <- <-]. by apply startswith_true.
  - destruct (Str.startswith (c :: s) sep) eqn:Hs.
    + intros [= <- <-]. by apply startswith_true.
    + destruct (Str.find_split sep s) as [[h0 t0]|] eqn:Hf; [|done].
      intros [= <- <-]. simpl. f_equal. by apply IH.
Qed.

Lemma find_split_least sep s h t :
  Str.find_split sep s = Some (h, t) →
  ∀ h' t', s = h' ++ sep ++ t' → length h ≤ length h'.
Proof.
  revert h. induction s as [|c s IH]; intros h; rewrite find_split_eq.
  - destruct (Str.startswith [] sep); [|done].
    intros [= <- <-] h' t' _. simpl. lia.
  - destruct (Str.startswith (c :: s) sep) eqn:Hs.
    + intros [= <- <-] h' t' _. simpl. lia.
    + destruct (Str.find_split sep s) as [[h0 t0]|] eqn:Hf; [|done].
      intros [= <- <-] h' t' Heq. destruct h' as [|c' h'].
      * simpl in Heq. rewrite Heq, startswith_app in Hs. done.
      * injection Heq as -> ->. simpl.
        specialize (IH h0 eq_refl h' t' eq_refl). lia.
Qed.

Lemma find_split_complete sep h t :
  is_Some (Str.find_split sep (h ++ sep ++ t)).
Proof.
  induction h as [|c h IH]; rewrite find_split_eq.
  - simpl. by rewrite startswith_app.
  - destruct (Str.startswith _ sep); [done|].
    simpl. destruct IH as [[h0 t0] ->]. done.
Qed.

Lemma find_split_first sep s :
  contains sep s →
  ∃ h t, first_occurrence sep s h t ∧ Str.find_split sep s = Some (h, t).
Proof.
  intros (h0 & t0 & ->).
  destruct (find_split_complete sep h0 t0) as [[h t] Hf].
  exists h, t. split; [split|done].
  - by apply find_split_sound.
  - by apply find_split_least with t.
Qed.


Lemma first_occurrence_unique sep s h t h' t' :
  first_occurrence sep s h t → first_occurrence sep s h' t' →
  h = h' ∧ t = t'.
Proof.
  intros [E1 L1] [E2 L2].
  assert (length h = length h') as Hlen.
  { specialize (L1 _ _ E2). specialize (L2 _ _ E1). lia. }
  rewrite E1 in E2. apply app_inj_1 in E2 as [-> E2]; [|done].
  by apply app_inv_head in E2 as ->.
Qed.

Lemma startswith_head_ne a b s p :
  a ≠ b → Str.startswith (b :: s) (a :: p) = false.
Proof.
  intros Hne. cbn [Str.startswith]. apply andb_false_iff. left.
  by apply N.eqb_neq.
Qed.

(** A header without a newline cannot hide an earlier separator. *)
Lemma find_split_header h t :
  nl ∉ h → Str.find_split separator (h ++ separator ++ t) = Some (h, t).
Proof.
  induction h as [|a h IH]; intros Hnl; rewrite find_split_eq.
  - rewrite app_nil_l.
    by rewrite (startswith_app separator t), (drop_app_length separator t).
  - apply not_elem_of_cons in Hnl as [Ha Hh].
    rewrite <- app_comm_cons.
    rewrite (startswith_head_ne nl a _ (u "---" ++ [nl]) Ha).
    by rewrite (IH Hh).
Qed.

Lemma lstrip_app s y :
  Str.lstrip s ≠ [] → Str.lstrip (s ++ y) = Str.lstrip s ++ y.
Proof.
  induction s as [|a s IH]; simpl; [done|].
  destruct (Str.isspace a); [exact IH|done].
Qed.

Lemma rstrip_app x s :
  Str.rstrip s ≠ [] → Str.rstrip (x ++ s) = x ++ Str.rstrip s.
Proof.
  unfold Str.rstrip. intros Hne.
  rewrite rev_app_distr, lstrip_app.
  - by rewrite rev_app_distr, rev_involutive.
  - intros Hnil. apply Hne. by rewrite Hnil.
Qed.

Lemma strip_keeps a x' x s :
  x = a :: x' → Str.isspace a = false → Str.rstrip s ≠ [] →
  Str.strip (x ++ s) = x ++ Str.rstrip s.
Proof.
  intros -> Ha Hne. unfold Str.strip.
  rewrite <- app_comm_cons. cbn [Str.lstrip]. rewrite Ha.
  by rewrite app_comm_cons, rstrip_app.
Qed.

Lemma rstrip_last s x :
  last s = Some x → Str.isspace x = false → Str.rstrip s = s.
Proof.
  intros Hlast Hx. apply last_Some in Hlast as [s' ->].
  unfold Str.rstrip. rewrite rev_app_distr. simpl. rewrite Hx. simpl.
  by rewrite rev_involutive.
Qed.

Lemma join_no_newline (parts : list str) :
  (∀ c, c ∈ parts → nl ∉ c) → nl ∉ Str.join (u "/") parts.
Proof.
  induction parts as [|c parts IH]; intros Hall.
  - apply not_elem_of_nil.
  - assert (nl ∉ c) as Hc by (apply Hall; left).
    assert (nl ∉ Str.join (u "/") parts) as Hrest.
    { apply IH. intros c' Hc'. apply Hall. by right. }
    destruct parts as [|c' parts]; [exact Hc|].
    change (nl ∉ c ++ u "/" ++ Str.join (u "/") (c' :: parts)).
    rewrite !not_elem_of_app. split_and!; [done| |done].
    compute_done.
Qed.

(** ** The envelope codec *)

Lemma decode_clean response_text cleaned :
  clean response_text = inr cleaned →
  decode response_text = unpack_body cleaned.
Proof. unfold decode. by intros ->. Qed.

Lemma unpack_body_found cleaned header body :
  Str.find_split separator cleaned = Some (header, body) →
  unpack_body cleaned = inr body.
Proof. unfold unpack_body, Str.split1. by intros ->. Qed.

Lemma unpack_body_missing cleaned :
  Str.find_split separator cleaned = None →
  unpack_body cleaned = inl (ValueError "not enough values to unpack").
Proof. unfold unpack_body, Str.split1. by intros ->. Qed.



(** The request envelope of a path without newlines comes back as the
    content without its trailing whitespace. *)
Lemma decode_encode_rstrip relative_path content :
  (∀ c, c ∈ relative_path → nl ∉ c) →
  Str.rstrip content ≠ [] →
  decode (encode relative_path content) = inr (Str.rstrip content).
Proof.
  intros Hpath Hne.
  set (header := u "FILE_PATH: " ++ Path.as_posix relative_path).
  assert (nl ∉ header) as Hhdr.
  { unfold header. rewrite not_elem_of_app. split.
    - compute_done.
    - by apply join_no_newline. }
  assert (Str.strip (encode relative_path content)
          = header ++ separator ++ Str.rstrip content) as Hstrip.
  { unfold encode. rewrite !app_assoc.
    rewrite (strip_keeps 70%N
               (u "ILE_PATH: " ++ Path.as_posix relative_path ++ separator));
      [|by rewrite <- app_assoc|done|done].
    unfold header. by rewrite <- !app_assoc. }
  assert (clean (encode relative_path content)
          = inr (header ++ separator ++ Str.rstrip content)) as Hclean.
  { unfold clean. rewrite Hstrip. by unfold header. }
  rewrite (decode_clean _ _ Hclean).
  apply unpack_body_found with header. by apply find_split_header.
Qed.

Lemma find_split_first_occurrence sep s h t :
  Str.find_split sep s = Some (h, t) → first_occurrence sep s h t.
Proof.
  intros Hf. split.
  - by apply find_split_sound.
  - by apply find_split_least with t.
Qed.

Lemma first_occurrence_find_split sep s h t :
  first_occurrence sep s h t → Str.find_split sep s = Some (h, t).
Proof.
  intros Hfirst.
  destruct (find_split_first sep s) as (h' & t' & Hfirst' & Hf).
  { exists h, t. apply Hfirst. }
  by destruct (first_occurrence_unique _ _ _ _ _ _ Hfirst Hfirst') as [-> ->].
Qed.

(** ** Effects on the output tree *)

Section Effects.

Context (E : Env).

Lemma write_text_lookup p data w w' :
  write_text E p data w = (inr tt, w') →
  dst w' !! p = Some (NFile data).
Proof.
  unfold write_text. destruct (fault E _); [done|].
  destruct (_ && _); [|done].
  intros [= <-]. simpl. apply lookup_insert_eq.
Qed.

Lemma write_text_frame p data w r w' :
  write_text E p data w = (r, w') →
  logs w' = logs w ∧ _index w' = _index w ∧ api_calls w' = api_calls w.
Proof.
  unfold write_text. destruct (fault E _); [by intros [= <- <-]|].
  destruct (_ && _); by intros [= <- <-].
Qed.

Lemma mkdir_frame p w r w' :
  mkdir E p w = (r, w') →
  logs w' = logs w ∧ _index w' = _index w ∧ api_calls w' = api_calls w.
Proof.
  unfold mkdir. destruct (fault E _); [by intros [= <- <-]|].
  destruct (existsb _ _); by intros [= <- <-].
Qed.

Lemma save_decoded response_text output_path body w w1 w2 :
  decode response_text = inr body →
  mkdir E (Path.parent output_path) w = (inr tt, w1) →
  write_text E output_path body w1 = (inr tt, w2) →
  save_translated_file E response_text output_path w = (inr tt, w2).
Proof.
  intros Hd Hm Hw. unfold save_translated_file. run.
  by rewrite Hd, Hm, Hw.
Qed.


End Effects.

Lemma nothing_contains_separator : ¬ contains separator [].
Proof. intros (h & t & Heq). by destruct h. Qed.

(** Where the line-by-line cleaning leaves a separator, the code's
    [split]/[rsplit] cleaning returns the same text. *)
Lemma clean_by_lines response_text :
  contains separator (cleaned_by_lines response_text) →
  clean response_text = inr (cleaned_by_lines response_text).
Proof.
  unfold cleaned_by_lines, clean. cbv zeta.
  destruct (_ && _); [|done].
  unfold last_line_dropped, first_line_dropped, Str.split1, Str.rsplit1.
  change (rev [nl]) with [nl].
  destruct (Str.find_split [nl] (Str.strip response_text)) as [[h rest]|].
  - change (item [h; rest] 1) with (@inr exception str rest). cbv beta iota.
    destruct (Str.find_split [nl] (rev rest)) as [[t h']|]; [done|].
    intros Hc. by apply nothing_contains_separator in Hc.
  - change (Str.find_split [nl] (rev [])) with (@None (str * str)).
    intros Hc. by apply nothing_contains_separator in Hc.
Qed.

(** C2. When the response, trimmed and (if it starts and ends with the
    fence) without its first and last lines, splits around the separator,
    with [header] and [body] the two sides of the first occurrence, the
    code's cleaning yields that text and decoding returns [body]; when
    the directory creation and the write succeed, [save_translated_file]
    writes exactly [body] to the output path.  The envelope
    "FILE_PATH: a/b.md\n---\nHola" decodes to "Hola". *)
Theorem decode_returns_body response_text header body :
  first_occurrence separator (cleaned_by_lines response_text) header body →
  clean response_text = inr (cleaned_by_lines response_text) ∧
  decode response_text = inr body ∧
  (∀ E output_path w w1 w2,
     mkdir E (Path.parent output_path) w = (inr tt, w1) →
     write_text E output_path body w1 = (inr tt, w2) →
     save_translated_file E response_text output_path w = (inr tt, w2) ∧
     dst w2 !! output_path = Some (NFile body)) ∧
  decode hola_envelope = inr (u "Hola").
Proof.
  intros Hfirst.
  assert (clean response_text = inr (cleaned_by_lines response_text))
    as Hclean.
  { apply clean_by_lines. exists header, body. apply Hfirst. }
  assert (decode response_text = inr body) as Hd.
  { rewrite (decode_clean _ _ Hclean).
    apply unpack_body_found with header.
    by apply first_occurrence_find_split. }
  split_and!; [done|done| |done].
  intros E output_path w w1 w2 Hm Hw. split.
  - by eapply save_decoded.
  - by eapply write_text_lookup.
Qed.

Lemma decode_returns_body_witness :
  let p := [u "a"; u "b.md"] in
  let fenced := fence ++ u "text" ++ [nl] ++ hola_envelope ++ [nl] ++ fence in
  let w1 := set_dst (make_dirs ∅ [u "a"]) initial in
  let w2 := set_dst (<[p := NFile (u "Hola")]> (dst w1)) w1 in
  decode fenced = inr (u "Hola") ∧
  save_translated_file (calm None) fenced p initial = (inr tt, w2) ∧
  dst w2 !! p = Some (NFile (u "Hola")).
Proof.
  intros p fenced w1 w2.
  destruct (decode_returns_body fenced (u "FILE_PATH: a/b.md") (u "Hola"))
    as (_ & Hd & Hsave & _).
  - apply find_split_first_occurrence. reflexivity.
  - destruct (Hsave (calm None) p initial w1 w2) as [Hrun Hfile].
    + reflexivity.
    + reflexivity.
    + split_and!; [exact Hd|exact Hrun|exact Hfile].
Defined.






(** C10 as stated fails: the file's final newline does not come back. *)
Lemma roundtrip_loses_trailing_newline :
  let relative_path := [u "a"; u "b.md"] in
  let content := u "Hola" ++ [nl] in
  (∀ c, c ∈ relative_path → nl ∉ c) ∧
  decode (encode relative_path content) = inr (u "Hola") ∧
  decode (encode relative_path content) ≠ inr content.
Proof.
  intros relative_path content. split_and!.
  - intros c Hc. unfold relative_path in Hc.
    repeat (apply elem_of_cons in Hc as [->|Hc]; [compute_done|]).
    by apply elem_of_nil in Hc.
  - reflexivity.
  - intros H. vm_compute in H. discriminate H.
Qed.

(** C10, amended. For a relative path without newline and a content that
    is not empty and does not end with a whitespace character, decoding
    the request envelope gives back the content. *)
Theorem decode_encode_roundtrip relative_path content x :
  (∀ c, c ∈ relative_path → nl ∉ c) →
  last content = Some x →
  Str.isspace x = false →
  decode (encode relative_path content) = inr content.
Proof.
  intros Hpath Hlast Hx.
  assert (Str.rstrip content = content) as Hr by by eapply rstrip_last.
  rewrite <- Hr at 2. apply decode_encode_rstrip; [done|].
  rewrite Hr. intros ->. done.
Qed.

Lemma decode_encode_roundtrip_witness :
  decode (encode [u "a"; u "b.md"] (u "Hola")) = inr (u "Hola").
Proof.
  apply (decode_encode_roundtrip [u "a"; u "b.md"] (u "Hola") 97%N).
  - intros c Hc.
    repeat (apply elem_of_cons in Hc as [->|Hc]; [compute_done|]).
    by apply elem_of_nil in Hc.
  - reflexivity.
  - reflexivity.
Defined.

(** ** The worker *)

Lemma log_translate_progress_eq log_level total_files content w :
  log_translate_progress log_level total_files content w =
  (inr tt,
   add_log (Progress log_level (_index w + 1) total_files content)
     (set_index (_index w + 1) w)).
Proof. reflexivity. Qed.



(** ** Scanner and synchroniser *)

Lemma endswith_drop s i : Str.endswith s (drop i s) = true.
Proof.
  unfold Str.endswith.
  rewrite <- (take_drop i s) at 1. rewrite rev_app_distr.
  apply startswith_app.
Qed.

Lemma endswith_suffix name : Str.endswith name (Path.suffix name) = true.
Proof.
  unfold Path.suffix. destruct (_ && _); [apply endswith_drop|].
  unfold Str.endswith. done.
Qed.

(** What the synchroniser leaves out, the scanner selects. *)
Lemma not_mirrored_is_selected extensions name :
  mirrored extensions name = false → selected extensions name = true.
Proof.
  unfold mirrored, selected. intros H.
  apply negb_false_iff, bool_decide_eq_true in H.
  apply existsb_exists. exists (Path.suffix name). split.
  - by apply list_elem_of_In.
  - apply endswith_suffix.
Qed.

(** C8, the code at the failing inputs. With the default extensions a
    file named ".md" has the empty [suffix], so the synchroniser copies it
    although the scanner selects it; with the extension "md" the same
    happens to "README.md".  In a run over a tree holding only ".md" the
    copy makes the worker skip the file: it is left untranslated and no
    request is sent. *)
Theorem scanner_and_synchroniser_disagree :
  selected default_extensions (u ".md") = true ∧
  mirrored default_extensions (u ".md") = true ∧
  selected [u "md"] (u "README.md") = true ∧
  mirrored [u "md"] (u "README.md") = true ∧
  let E := mkEnv (Some dotfile_tree) (λ _, None) None echo id in
  let w := (main E (mkArgs (u "key") default_extensions) initial).2 in
  find_doc_files dotfile_tree default_extensions = [[u ".md"]] ∧
  dst w !! [u ".md"] = Some (NFile (u "# Title")) ∧
  api_calls w = [] ∧
  progress_indices (logs w) = [1%Z] ∧
  Progress INFO 1 1 (MsgSkipped (u ".md")) ∈ logs w.
Proof.
  split_and!; try reflexivity.
  vm_compute. set_solver.
Qed.

(** ** The progress counter under overlapping calls *)

Lemma progress_indices_snoc l lv i total m :
  progress_indices (l ++ [Progress lv i total m]) = progress_indices l ++ [i].
Proof. unfold progress_indices. by rewrite omap_app. Qed.







(** ** Frames: what a step leaves alone *)




Lemma plain_step_same_logs w w' :
  logs w' = logs w → _index w' = _index w → plain_step w w'.
Proof. intros Hl Hi. split; [done|]. exists []. by rewrite app_nil_r. Qed.








Section Frames.

Context (E : Env).

Lemma exists_same p w r w' : exists_ E p w = (r, w') → w' = w.
Proof. unfold exists_. destruct (fault E _); by intros [= _ <-]. Qed.

Lemma read_text_same p w r w' : read_text E p w = (r, w') → w' = w.
Proof.
  unfold read_text. destruct (fault E _); [by intros [= _ <-]|].
  destruct (src E) as [t|]; [|by intros [= _ <-]].
  destruct (tree_lookup p t) as [[|]|]; by intros [= _ <-].
Qed.





Lemma for_each_rel {A} (R : World → World → Prop) (body : A → M unit) l :
  (∀ w, R w w) →
  (∀ a b c, R a b → R b c → R a c) →
  (∀ x w r w', body x w = (r, w') → R w w') →
  ∀ w r w', for_each l body w = (r, w') → R w w'.
Proof.
  intros Hrefl Htrans Hbody. induction l as [|x l IH]; intros w r w'; simpl.
  - run. by intros [= _ <-].
  - run. destruct (body x w) as [[e|[]] w1] eqn:Hx.
    + intros [= _ <-]. by eapply Hbody.
    + intros Hrest. eapply Htrans; [by eapply Hbody|by eapply IH].
Qed.



End Frames.

(** ** Fatal conditions *)



(** ** One item *)



Section Items.

Context (E : Env).

Lemma create_step req w :
  create E req w = (inr (api E req), add_api_call req w) ∧
  plain_step w (add_api_call req w) ∧
  dst (add_api_call req w) = dst w.
Proof. split_and!; [done|by apply plain_step_same_logs|done]. Qed.





End Items.




(** ** The pool *)

Section Pool.

Context (E : Env).



End Pool.




(** ** A second run *)

Section SecondRun.

Context (E : Env).



End SecondRun.




(** * Further properties *)

(** ** Trimming and the fence *)

Lemma lstrip_blank a x : blank a → Str.lstrip (a ++ x) = Str.lstrip x.
Proof.
  induction 1 as [|c a Hc _ IH]; [done|].
  cbn [app Str.lstrip]. by rewrite Hc.
Qed.

Lemma lstrip_nil_blank s : Str.lstrip s = [] → blank s.
Proof.
  induction s as [|c s IH]; intros H; [constructor|].
  cbn [Str.lstrip] in H. destruct (Str.isspace c) eqn:Hc; [|done].
  constructor; [done|by apply IH].
Qed.

Lemma rstrip_blank x b : blank b → Str.rstrip (x ++ b) = Str.rstrip x.
Proof.
  intros Hb. unfold Str.rstrip. rewrite rev_app_distr.
  rewrite lstrip_blank; [done|]. by apply List.Forall_rev.
Qed.

Lemma strip_outer a r b :
  blank a → blank b → Str.strip (a ++ r ++ b) = Str.strip r.
Proof.
  intros Ha Hb. unfold Str.strip. rewrite lstrip_blank by done.
  destruct (Str.lstrip r) as [|c r'] eqn:Hr.
  - apply lstrip_nil_blank in Hr.
    rewrite lstrip_blank by done.
    rewrite <- (app_nil_r b), lstrip_blank by done. done.
  - rewrite lstrip_app by by rewrite Hr.
    rewrite Hr. by apply rstrip_blank.
Qed.

(** The parse reads the response through [strip] only. *)
Lemma decode_strip r r' : Str.strip r = Str.strip r' → decode r = decode r'.
Proof. unfold decode, clean. by intros ->. Qed.

(** X1. Whitespace around the response does not change what is parsed
    out of it: blank text before and after the response is ignored. *)
Theorem decode_ignores_outer_whitespace before response_text after :
  blank before → blank after →
  decode (before ++ response_text ++ after) = decode response_text.
Proof. intros Ha Hb. apply decode_strip. by apply strip_outer. Qed.

Lemma decode_ignores_outer_whitespace_witness :
  decode ([nl] ++ u "  " ++ hola_envelope ++ u " " ++ [nl; nl])
  = inr (u "Hola").
Proof.
  change (decode ([nl] ++ u "  " ++ hola_envelope ++ u " " ++ [nl; nl]))
    with (decode (([nl] ++ u "  ") ++ hola_envelope ++ (u " " ++ [nl; nl]))).
  rewrite (decode_ignores_outer_whitespace
             ([nl] ++ u "  ") hola_envelope (u " " ++ [nl; nl])).
  - reflexivity.
  - repeat constructor.
  - repeat constructor.
Defined.

(** Text without a newline is skipped when looking for a separator that
    starts with one. *)
Lemma find_split_skip sep' h t :
  nl ∉ h →
  Str.find_split (nl :: sep') (h ++ t)
  = (λ ht, (h ++ ht.1, ht.2)) <$> Str.find_split (nl :: sep') t.
Proof.
  induction h as [|a h IH]; intros Hnl.
  - rewrite app_nil_l. by destruct (Str.find_split _ t) as [[]|].
  - apply not_elem_of_cons in Hnl as [Ha Hh].
    rewrite find_split_eq, <- app_comm_cons.
    rewrite (startswith_head_ne nl a _ sep' Ha), (IH Hh).
    by destruct (Str.find_split _ t) as [[]|].
Qed.

Lemma find_split_at sep' h t :
  nl ∉ h →
  Str.find_split (nl :: sep') (h ++ (nl :: sep') ++ t) = Some (h, t).
Proof.
  intros Hnl. rewrite find_split_skip by done.
  rewrite find_split_eq, startswith_app, drop_app_length.
  cbn. by rewrite app_nil_r.
Qed.

Lemma fence_has_no_newline : nl ∉ fence.
Proof. compute_done. Qed.

Lemma not_elem_of_rev (x : N) l : x ∉ l → x ∉ rev l.
Proof. intros Hx Hin. apply Hx. by apply list_elem_of_In, in_rev, list_elem_of_In. Qed.

(** The cleaning takes a fenced response to its inner text, as it is. *)
Lemma clean_fenced tag inner :
  nl ∉ tag → clean (fenced tag inner) = inr inner.
Proof.
  intros Htag. unfold clean, fenced. cbv zeta.
  assert (Str.strip (fence ++ tag ++ [nl] ++ inner ++ [nl] ++ fence)
          = fence ++ tag ++ [nl] ++ inner ++ [nl] ++ fence) as ->.
  { replace (fence ++ tag ++ [nl] ++ inner ++ [nl] ++ fence)
      with ((fence ++ tag ++ [nl] ++ inner ++ [nl]) ++ fence)
      by by rewrite <- !app_assoc.
    by rewrite (strip_keeps 96%N (u "``" ++ tag ++ [nl] ++ inner ++ [nl])). }
  rewrite startswith_app.
  assert (Str.endswith (fence ++ tag ++ [nl] ++ inner ++ [nl] ++ fence) fence
          = true) as ->.
  { unfold Str.endswith. rewrite !rev_app_distr, <- !app_assoc.
    apply startswith_app. }
  cbn [andb]. unfold Str.split1.
  replace (fence ++ tag ++ [nl] ++ inner ++ [nl] ++ fence)
    with ((fence ++ tag) ++ [nl] ++ inner ++ [nl] ++ fence)
    by by rewrite <- !app_assoc.
  rewrite (find_split_at [] (fence ++ tag)).
  2:{ rewrite not_elem_of_app. split; [apply fence_has_no_newline|done]. }
  change (item [fence ++ tag; inner ++ [nl] ++ fence] 1)
    with (@inr exception str (inner ++ [nl] ++ fence)).
  cbv beta iota. unfold Str.rsplit1.
  rewrite !rev_app_distr, <- !app_assoc.
  change (rev [nl]) with [nl].
  rewrite (find_split_at [] (rev fence) (rev inner)).
  2:{ apply not_elem_of_rev, fence_has_no_newline. }
  unfold item. cbn. by rewrite rev_involutive.
Qed.

(** X2. A fenced response, whatever its language tag, is parsed like its
    inner text taken as it is; in particular the request envelope of any
    content, blank or ending in whitespace, comes back unchanged when it
    is returned inside a fence. *)
Theorem fenced_envelope_roundtrip tag inner relative_path content :
  nl ∉ tag →
  (∀ c, c ∈ relative_path → nl ∉ c) →
  decode (fenced tag inner) = unpack_body inner ∧
  decode (fenced tag (encode relative_path content)) = inr content.
Proof.
  intros Htag Hpath. split.
  - by rewrite (decode_clean _ _ (clean_fenced tag inner Htag)).
  - rewrite (decode_clean _ _ (clean_fenced tag _ Htag)).
    apply unpack_body_found with (u "FILE_PATH: " ++ Path.as_posix relative_path).
    unfold encode. rewrite app_assoc.
    apply (find_split_at (u "---" ++ [nl])).
    rewrite not_elem_of_app. split; [compute_done|by apply join_no_newline].
Qed.

Lemma fenced_envelope_roundtrip_witness :
  decode (fenced (u "markdown") (encode [u "a"; u "b.md"] (u "Hola" ++ [nl])))
  = inr (u "Hola" ++ [nl]).
Proof.
  apply (fenced_envelope_roundtrip (u "markdown") [] [u "a"; u "b.md"]
           (u "Hola" ++ [nl])).
  - compute_done.
  - intros c Hc.
    repeat (apply elem_of_cons in Hc as [->|Hc]; [compute_done|]).
    by apply elem_of_nil in Hc.
Defined.

Lemma not_blank_rstrip s : ¬ blank s → Str.rstrip s ≠ [].
Proof.
  intros Hs Hr. apply Hs. unfold Str.rstrip in Hr.
  assert (Str.lstrip (rev s) = []) as Hl.
  { destruct (Str.lstrip (rev s)) as [|c l]; [done|].
    cbn [rev] in Hr. by apply app_eq_nil in Hr as [_ ?]. }
  apply lstrip_nil_blank, List.Forall_rev in Hl. by rewrite rev_involutive in Hl.
Qed.

(** X3. What the parse makes of a request envelope (path without
    newline): a content that is not blank comes back without its trailing
    whitespace; a blank content (an empty file, or whitespace only) leaves
    no separator once trimmed, and the parse raises [ValueError]. *)
Theorem envelope_decoding relative_path content :
  (∀ c, c ∈ relative_path → nl ∉ c) →
  (¬ blank content →
   decode (encode relative_path content) = inr (Str.rstrip content)) ∧
  (blank content →
   decode (encode relative_path content)
   = inl (ValueError "not enough values to unpack")).
Proof.
  intros Hpath. split.
  - intros Hc. apply decode_encode_rstrip; [done|by apply not_blank_rstrip].
  - intros Hc.
    set (header := u "FILE_PATH: " ++ Path.as_posix relative_path).
    assert (nl ∉ header) as Hhdr.
    { unfold header. rewrite not_elem_of_app. split;
        [compute_done|by apply join_no_newline]. }
    assert (encode relative_path content
            = [] ++ (header ++ nl :: u "---") ++ ([nl] ++ content)) as Henc.
    { unfold encode, header. rewrite <- !app_assoc. done. }
    assert (Str.strip (header ++ nl :: u "---") = header ++ nl :: u "---")
      as Hfix.
    { replace (header ++ nl :: u "---") with ((header ++ [nl]) ++ u "---")
        by by rewrite <- app_assoc.
      unfold header.
      by rewrite (strip_keeps 70%N
                    (u "ILE_PATH: " ++ Path.as_posix relative_path ++ [nl]));
        [|by rewrite <- !app_assoc|done|done]. }
    rewrite (decode_strip _ (header ++ nl :: u "---")).
    2:{ rewrite Henc, strip_outer; [done|constructor|by constructor]. }
    assert (clean (header ++ nl :: u "---") = inr (header ++ nl :: u "---"))
      as Hclean.
    { unfold clean. rewrite Hfix. by unfold header. }
    rewrite (decode_clean _ _ Hclean). apply unpack_body_missing.
    by rewrite (find_split_skip (u "---" ++ [nl]) header).
Qed.

Lemma envelope_decoding_witness :
  decode (encode [u "a.md"] (u "Hola " ++ [nl])) = inr (u "Hola") ∧
  decode (encode [u "a.md"] [nl])
  = inl (ValueError "not enough values to unpack").
Proof.
  destruct (envelope_decoding [u "a.md"] (u "Hola " ++ [nl])) as [Hfull _].
  { intros c Hc. apply list_elem_of_singleton in Hc as ->. compute_done. }
  destruct (envelope_decoding [u "a.md"] [nl]) as [_ Hblank].
  { intros c Hc. apply list_elem_of_singleton in Hc as ->. compute_done. }
  split.
  - apply Hfull. intros Hb. by inversion Hb.
  - apply Hblank. by repeat constructor.
Defined.

(** ** The stream *)

Lemma consume_run chunks stop :
  ∀ acc w,
    consume chunks stop acc w =
    (match stop with
     | Some e => inl e
     | None => inr (acc ++ omap chunk_text chunks)
     end,
     mkWorld (dst w)
       (logs w ++ map (λ c, Plain DEBUG (MsgChunk c)) chunks)
       (_index w) (api_calls w)).
Proof.
  induction chunks as [|c chunks IH]; intros acc w.
  - cbn. rewrite !app_nil_r. by destruct stop, w.
  - cbn [consume]. run. rewrite IH. cbn [dst logs _index api_calls add_log].
    rewrite <- app_assoc. destruct stop; [done|].
    do 2 f_equal. cbn [omap list_omap]. destruct (chunk_text c); [|done].
    by rewrite <- app_assoc.
Qed.

Lemma stream_run E req w :
  (stream ← create E req; consume stream.1 stream.2 []) w =
  (match (api E req).2 with
   | Some e => inl e
   | None => inr (omap chunk_text (api E req).1)
   end,
   streamed req (api E req).1 w).
Proof. run. unfold create. by rewrite consume_run. Qed.

Lemma translate_body_read E file_path total_files w content :
  read_text E file_path w = (inr content, w) →
  translate_body E file_path total_files w =
  match (api E (encode file_path content)).2 with
  | Some e => (inl e, streamed (encode file_path content)
                        (api E (encode file_path content)).1 w)
  | None =>
      (save_translated_file E
         (joined (api E (encode file_path content)).1) file_path ;;
       log_translate_progress INFO total_files
         (MsgTranslated (Path.name file_path)))
        (streamed (encode file_path content)
           (api E (encode file_path content)).1 w)
  end.
Proof.
  intros Hread. unfold translate_body.
  change (mbind ?k (read_text E file_path) w)
    with (match read_text E file_path w with
          | (inr a, w') => k a w'
          | (inl e, w') => (inl e, w')
          end).
  rewrite Hread.
  pose proof (stream_run E (encode file_path content) w) as Hs.
  revert Hs. run. unfold create. intros ->.
  by destruct (api E (encode file_path content)).2.
Qed.

(** X4. A stream that breaks, after any number of chunks, fails the item
    without writing anything: the text received so far is dropped, the
    output tree is the one before the request, every chunk received has
    its debug line, and the item is logged as an error under the next
    index. *)
Theorem broken_stream_writes_nothing
    E file_path total_files w content chunks e :
  exists_ E file_path w = (inr false, w) →
  read_text E file_path w = (inr content, w) →
  api E (encode file_path content) = (chunks, Some e) →
  ∃ w',
    translate_file E file_path total_files w = (inr tt, w') ∧
    dst w' = dst w ∧
    api_calls w' = api_calls w ++ [encode file_path content] ∧
    logs w' = logs w ++ map (λ c, Plain DEBUG (MsgChunk c)) chunks ++
      [Progress ERROR (_index w + 1) total_files
         (MsgTranslateError (Path.name file_path) e)].
Proof.
  intros Hex Hread Hapi. eexists. split.
  - unfold translate_file. run. rewrite Hex.
    rewrite (translate_body_read E _ _ _ _ Hread), Hapi. cbn [fst snd].
    rewrite log_translate_progress_eq. reflexivity.
  - cbn. by rewrite <- app_assoc.
Qed.

Lemma broken_stream_writes_nothing_witness :
  let cut req := ([{| choices := [{| delta := Some {| content := Some (u "FILE") |} |}] |}],
                  Some (APIError "Connection reset")) in
  let E := mkEnv (Some one_doc) (λ _, None) None cut id in
  ∃ w',
    translate_file E [u "a.md"] 1 initial = (inr tt, w') ∧
    dst w' = ∅ ∧
    api_calls w' = [encode [u "a.md"] (u "hi")].
Proof.
  intros cut E.
  destruct (broken_stream_writes_nothing E [u "a.md"] 1 initial (u "hi")
              [{| choices := [{| delta := Some {| content := Some (u "FILE") |} |}] |}]
              (APIError "Connection reset"))
    as (w' & Hrun & Hdst & Hapi & _).
  - reflexivity.
  - reflexivity.
  - reflexivity.
  - exists w'. split_and!; [exact Hrun|exact Hdst|exact Hapi].
Defined.

(** X5. A translation that goes through: when the output is absent, the
    source is read, the stream ends normally, the joined text parses to
    [body] and the directory creation and the write succeed, the output
    file holds exactly [body], one request was sent (the envelope of the
    path and the content read), and the item is logged as translated
    under the next index. *)
Theorem translation_is_written
    E file_path total_files w content chunks body w1 w2 :
  exists_ E file_path w = (inr false, w) →
  read_text E file_path w = (inr content, w) →
  api E (encode file_path content) = (chunks, None) →
  decode (joined chunks) = inr body →
  mkdir E (Path.parent file_path)
    (streamed (encode file_path content) chunks w) = (inr tt, w1) →
  write_text E file_path body w1 = (inr tt, w2) →
  ∃ w',
    translate_file E file_path total_files w = (inr tt, w') ∧
    dst w' !! file_path = Some (NFile body) ∧
    api_calls w' = api_calls w ++ [encode file_path content] ∧
    logs w' = logs w ++ map (λ c, Plain DEBUG (MsgChunk c)) chunks ++
      [Progress INFO (_index w + 1) total_files
         (MsgTranslated (Path.name file_path))].
Proof.
  intros Hex Hread Hapi Hdec Hm Hw.
  pose proof (save_decoded E _ _ _ _ _ _ Hdec Hm Hw) as Hsave.
  pose proof (write_text_lookup E _ _ _ _ Hw) as Hfile.
  apply write_text_frame in Hw as (Hl2 & Hi2 & Ha2).
  apply mkdir_frame in Hm as (Hl1 & Hi1 & Ha1).
  eexists. split.
  - unfold translate_file. run. rewrite Hex.
    rewrite (translate_body_read E _ _ _ _ Hread), Hapi. cbn [fst snd].
    run. rewrite Hsave, log_translate_progress_eq. reflexivity.
  - cbn [dst logs api_calls add_log set_index].
    rewrite Hl2, Hl1, Ha2, Ha1, Hi2, Hi1. cbn. split_and!; [done|done|].
    by rewrite <- app_assoc.
Qed.

Lemma translation_is_written_witness :
  let E := mkEnv (Some one_doc) (λ _, None) None echo id in
  ∃ w',
    translate_file E [u "a.md"] 1 initial = (inr tt, w') ∧
    dst w' !! [u "a.md"] = Some (NFile (u "hi")) ∧
    api_calls w' = [encode [u "a.md"] (u "hi")].
Proof.
  intros E.
  set (req := encode [u "a.md"] (u "hi")).
  set (ws := streamed req (echo req).1 initial).
  destruct (translation_is_written E [u "a.md"] 1 initial (u "hi")
              (echo req).1 (u "hi")
              (set_dst (make_dirs ∅ []) ws)
              (set_dst (<[[u "a.md"] := NFile (u "hi")]> (make_dirs ∅ []))
                 ws))
    as (w' & Hrun & Hfile & Hapi & _).
  - reflexivity.
  - reflexivity.
  - reflexivity.
  - reflexivity.
  - reflexivity.
  - reflexivity.
  - exists w'. split_and!; [exact Hrun|exact Hfile|exact Hapi].
Defined.

(** X6. The worker lets one exception out only: the one the existence
    check raises, before anything is done.  Whatever fails afterwards
    (read, request, stream, parse, write) is handled inside. *)
Theorem only_the_existence_check_escapes E file_path total_files w e w' :
  translate_file E file_path total_files w = (inl e, w') →
  fault E (OpStat file_path) = Some e ∧ w' = w.
Proof.
  unfold translate_file. run. unfold exists_.
  destruct (fault E (OpStat file_path)) as [e0|]; [by intros [= <- <-]|].
  destruct (bool_decide _); [done|].
  by destruct (translate_body E file_path total_files w) as [[?|[]] ?].
Qed.

Lemma only_the_existence_check_escapes_witness :
  let E := mkEnv (Some one_doc) no_access None echo id in
  fault E (OpStat [u "a.md"]) = Some (OSError "Permission denied").
Proof.
  intros E.
  apply (only_the_existence_check_escapes E [u "a.md"] 1 initial
           (OSError "Permission denied") initial).
  reflexivity.
Defined.

(** ** Requests *)

Section Requests.

Context (E : Env).

Lemma read_text_cases file_path w :
  (∃ e, read_text E file_path w = (inl e, w)) ∨
  (∃ content, read_text E file_path w = (inr content, w)).
Proof.
  destruct (read_text E file_path w) as [[e|content] w0] eqn:Hread;
    pose proof (read_text_same _ _ _ _ _ Hread) as ->; [left|right];
    by eexists.
Qed.




End Requests.



(** ** Nothing in the output tree is overwritten *)

Lemma make_dirs_lookup d p q :
  make_dirs d p !! q = d !! q ∨
  (d !! q = None ∧ make_dirs d p !! q = Some NDir).
Proof.
  unfold make_dirs. generalize (Path.ancestors p) as l. intros l. revert d.
  induction l as [|a l IH]; intros d; [by left|].
  cbn [foldl].
  set (d1 := match d !! a with None => <[a:=NDir]> d | Some _ => d end).
  assert (d1 !! q = d !! q ∨ (d !! q = None ∧ d1 !! q = Some NDir)) as Hd1.
  { unfold d1. destruct (d !! a) eqn:Ha; [by left|].
    destruct (decide (a = q)) as [->|Hne].
    - right. by rewrite lookup_insert_eq.
    - left. by rewrite lookup_insert_ne. }
  destruct (IH d1) as [Heq|[Hnone Hdir]], Hd1 as [Heq1|[Hnone1 Hdir1]].
  - left. congruence.
  - right. split; [done|congruence].
  - right. split; [congruence|done].
  - congruence.
Qed.

Lemma make_dirs_subseteq d p : d ⊆ make_dirs d p.
Proof.
  apply map_subseteq_spec. intros q x Hq.
  destruct (make_dirs_lookup d p q) as [->|[Hnone _]]; [done|congruence].
Qed.

Section Keeps.

Context (E : Env).

Lemma mkdir_keeps p w r w' :
  mkdir E p w = (r, w') →
  dst w ⊆ dst w' ∧ ∀ q, no_file_at q w → no_file_at q w'.
Proof.
  unfold mkdir. destruct (fault E _); [by intros [= _ <-]|].
  destruct (existsb _ _); intros [= _ <-]; [done|].
  split; [apply make_dirs_subseteq|].
  intros q Hq x. cbn [dst set_dst].
  destruct (make_dirs_lookup (dst w) p q) as [->|[_ ->]]; [apply Hq|done].
Qed.

Lemma write_text_keeps p data w r w' :
  no_file_at p w → write_text E p data w = (r, w') → dst w ⊆ dst w'.
Proof.
  intros Hfree. unfold write_text. destruct (fault E _); [by intros [= _ <-]|].
  destruct (is_dir (dst w) (Path.parent p) && negb (is_dir (dst w) p))
    eqn:Hok; intros [= _ <-]; [|done].
  apply andb_prop in Hok as [_ Hp]. unfold is_dir in Hp.
  cbn [dst set_dst]. apply insert_subseteq.
  destruct (dst w !! p) as [[|x]|] eqn:Hlook; [done|by destruct (Hfree x)|done].
Qed.

Lemma copy2_keeps data p w r w' :
  no_file_at p w → copy2 E data p w = (r, w') → dst w ⊆ dst w'.
Proof.
  intros Hfree. unfold copy2. destruct (fault E _); [by intros [= _ <-]|].
  destruct (is_dir (dst w) (Path.parent p) && negb (is_dir (dst w) p))
    eqn:Hok; intros [= _ <-]; [|done].
  apply andb_prop in Hok as [_ Hp]. unfold is_dir in Hp.
  cbn [dst set_dst]. apply insert_subseteq.
  destruct (dst w !! p) as [[|x]|] eqn:Hlook; [done|by destruct (Hfree x)|done].
Qed.

Lemma exists_absent p w w' :
  exists_ E p w = (inr false, w') → dst w !! p = None.
Proof.
  unfold exists_. destruct (fault E _); [done|].
  intros [= Hb _]. apply bool_decide_eq_false in Hb.
  destruct (dst w !! p); [|done]. destruct Hb. by eexists.
Qed.

Lemma absent_no_file p w : dst w !! p = None → no_file_at p w.
Proof. intros Hp x. by rewrite Hp. Qed.

(** Creating the parent, then writing: the step both branches of
    [save_translated_file] and the copy of [sync_directories] share. *)
Lemma mkdir_then_write_keeps p data w r w' :
  no_file_at p w →
  (mkdir E (Path.parent p) ;; write_text E p data) w = (r, w') →
  dst w ⊆ dst w' ∧ (is_Some (dst w' !! p) ∨ no_file_at p w').
Proof.
  intros Hfree. run.
  destruct (mkdir E (Path.parent p) w) as [[e|[]] w1] eqn:Hm;
    apply mkdir_keeps in Hm as [Hsub Hno].
  - intros [= _ <-]. split; [done|]. right. by apply Hno.
  - intros Hw. split.
    + etransitivity; [exact Hsub|]. eapply write_text_keeps; [|exact Hw].
      by apply Hno.
    + revert Hw. unfold write_text. destruct (fault E _).
      * intros [= _ <-]. right. by apply Hno.
      * destruct (_ && _); intros [= _ <-].
        -- left. cbn. rewrite lookup_insert_eq. by eexists.
        -- right. by apply Hno.
Qed.

Lemma save_translated_file_keeps response_text output_path w r w' :
  no_file_at output_path w →
  save_translated_file E response_text output_path w = (r, w') →
  dst w ⊆ dst w'.
Proof.
  intros Hfree. unfold save_translated_file.
  unfold try_except at 1.
  destruct ((content ← lift (decode response_text);
             mkdir E (Path.parent output_path) ;;
             write_text E output_path content) w)
    as [[e|[]] w1] eqn:Hbody.
  - assert (dst w ⊆ dst w1 ∧ no_file_at output_path w1) as [Hsub Hfree1].
    { revert Hbody. unfold mbind at 1, M_bind at 1, lift.
      destruct (decode response_text) as [e0|body].
      - by intros [= _ <-].
      - intros Hrun.
        destruct (mkdir_then_write_keeps output_path body w _ _ Hfree Hrun)
          as [Hsub [Hsome|Hno]]; [|done].
        revert Hrun. run.
        destruct (mkdir E _ w) as [[e1|[]] w0] eqn:Hm;
          apply mkdir_keeps in Hm as [_ Hno].
        + intros [= _ <-]. split; [done|]. by apply Hno.
        + unfold write_text. destruct (fault E _).
          * intros [= _ <-]. split; [done|]. by apply Hno.
          * destruct (_ && _); [done|]. intros [= _ <-].
            split; [done|]. by apply Hno. }
    cbn [any_exception]. cbv beta iota.
    destruct (value_or_index e).
    + unfold mbind at 1, M_bind at 1, lg. intros Hrun.
      etransitivity; [exact Hsub|].
      apply (mkdir_then_write_keeps output_path response_text
               (add_log (Plain WARNING (MsgUnparsable (Path.name output_path))) w1)
               r w'); [exact Hfree1|exact Hrun].
    + unfold lg. by intros [= _ <-].
  - intros [= _ <-]. revert Hbody. unfold mbind at 1, M_bind at 1, lift.
    destruct (decode response_text) as [e0|body]; [done|].
    intros Hrun. by apply mkdir_then_write_keeps in Hrun as [Hsub _].
Qed.

End Keeps.

Section KeepsRun.

Context (E : Env).

Lemma sync_entry_keeps extensions entry w r w' :
  sync_entry E extensions entry w = (r, w') → dst w ⊆ dst w'.
Proof.
  destruct entry as [relative_path [data|es]]; cbn [sync_entry].
  - destruct (mirrored _ _); [|run; by intros [= _ <-]].
    unfold mbind at 1, M_bind at 1.
    destruct (exists_ E relative_path w) as [[e|present] w0] eqn:Hex.
    + apply exists_same in Hex as ->. by intros [= _ <-].
    + pose proof (exists_same _ _ _ _ _ Hex) as ->.
      destruct present; cbn [negb]; [run; by intros [= _ <-]|].
      apply exists_absent, absent_no_file in Hex.
      run. destruct (mkdir E _ w) as [[e|[]] w1] eqn:Hm;
        apply mkdir_keeps in Hm as [Hsub Hno].
      * by intros [= _ <-].
      * intros Hc. etransitivity; [exact Hsub|].
        eapply copy2_keeps; [|exact Hc]. by apply Hno.
  - intros Hm. by apply mkdir_keeps in Hm as [Hsub _].
Qed.

Lemma translate_file_keeps file_path total_files w r w' :
  translate_file E file_path total_files w = (r, w') → dst w ⊆ dst w'.
Proof.
  unfold translate_file. unfold mbind at 1, M_bind at 1.
  destruct (exists_ E file_path w) as [[e|present] w0] eqn:Hex.
  - apply exists_same in Hex as ->. by intros [= _ <-].
  - pose proof (exists_same _ _ _ _ _ Hex) as ->.
    destruct present; [by intros [= _ <-]|].
    apply exists_absent, absent_no_file in Hex.
    assert (∀ r1 w1, translate_body E file_path total_files w = (r1, w1) →
                     dst w ⊆ dst w1) as Hbody.
    { intros r1 w1.
      destruct (read_text_cases E file_path w) as [[e Hread]|[content Hread]].
      - unfold translate_body.
        change (mbind ?k (read_text E file_path) w)
          with (match read_text E file_path w with
                | (inr a, w') => k a w'
                | (inl e, w') => (inl e, w')
                end).
        rewrite Hread. by intros [= _ <-].
      - rewrite (translate_body_read E _ _ _ _ Hread).
        destruct (api E _).2; [by intros [= _ <-]|].
        run.
        destruct (save_translated_file E _ file_path _)
          as [[e|[]] w2] eqn:Hsave;
          apply save_translated_file_keeps in Hsave; try done;
          by intros [= _ <-]. }
    unfold try_except.
    destruct (translate_body E file_path total_files w) as [r1 w1].
    specialize (Hbody _ _ eq_refl).
    destruct r1 as [e|[]]; by intros [= _ <-].
Qed.

Lemma guarded_item_keeps total_files file w r w' :
  guarded_item E total_files file w = (r, w') → dst w ⊆ dst w'.
Proof.
  unfold guarded_item, try_except.
  destruct (translate_file E file total_files w) as [[e|[]] w1] eqn:Htf;
    apply translate_file_keeps in Htf; by intros [= _ <-].
Qed.

Lemma for_each_keeps {A} (body : A → M unit) l :
  (∀ x w r w', body x w = (r, w') → dst w ⊆ dst w') →
  ∀ w r w', for_each l body w = (r, w') → dst w ⊆ dst w'.
Proof.
  intros Hbody.
  apply (for_each_rel (λ w w', dst w ⊆ dst w')); [done| |done].
  intros a b c Hab Hbc. by etransitivity.
Qed.

End KeepsRun.

Lemma sync_directories_keeps E src_dir extensions w r w' :
  sync_directories E src_dir extensions w = (r, w') → dst w ⊆ dst w'.
Proof.
  unfold sync_directories. run. intros Hrun.
  apply (for_each_keeps (sync_entry E extensions)) in Hrun; [done|].
  intros x w0 r0 w0'. apply sync_entry_keeps.
Qed.

(** X8. The mirror step never overwrites: every file and directory the
    output tree holds before [sync_directories] is there, with the same
    content, after it, whether the step returns or raises on the way. *)
Theorem sync_never_overwrites E src_dir extensions w :
  dst w ⊆ dst (sync_directories E src_dir extensions w).2.
Proof.
  destruct (sync_directories E src_dir extensions w) as [r w'] eqn:Hsync.
  by apply sync_directories_keeps in Hsync.
Qed.

(** X9. A whole run never overwrites or removes: every file and directory
    of the output tree at the start of [main] is there, with the same
    content, at the end, whatever fails on the way. *)
Theorem run_never_overwrites E args w :
  dst w ⊆ dst (main E args w).2.
Proof.
  unfold main. destruct (_ || _); [done|].
  destruct (src E) as [[data|es]|]; [done| |done].
  run.
  destruct (sync_directories E (TDir es) (extensions args) w)
    as [[e|[]] w1] eqn:Hsync; apply sync_directories_keeps in Hsync;
    [done|].
  destruct (find_doc_files (TDir es) (extensions args)) as [|f fs]; [done|].
  destruct (client_init E); [done|].
  unfold dispatch.
  destruct (for_each _ _ _) as [[e|[]] w2] eqn:Hpool;
    apply (for_each_keeps (guarded_item E _)) in Hpool;
    try (intros x w0 r0 w0'; apply guarded_item_keeps);
    cbn [snd dst add_log] in *; by etransitivity.
Qed.

(** ** The scanner and the walk *)

Lemma assoc_elem n es c : assoc n es = Some c → (n, c) ∈ es.
Proof.
  induction es as [|[m t] es IH]; [done|]. cbn [assoc].
  case_bool_decide as Hm.
  - intros [= ->]. subst m. left.
  - intros Hc. right. by apply IH.
Qed.

Lemma tree_lookup_app q r t :
  tree_lookup (q ++ r) t =
  match tree_lookup q t with
  | Some c => tree_lookup r c
  | None => None
  end.
Proof.
  revert t. induction q as [|n q IH]; intros t; [done|].
  cbn [app tree_lookup]. destruct t as [data|es]; [done|].
  destruct (assoc n es); [apply IH|done].
Qed.

(** Every directory reachable from the root is a step of the walk. *)
Lemma walk_reaches q :
  ∀ root t es,
    tree_lookup q t = Some (TDir es) → (root ++ q, es) ∈ walk root t.
Proof.
  induction q as [|n q IH]; intros root t es.
  - cbn. intros [= ->]. rewrite app_nil_r. cbn [walk]. left.
  - cbn [tree_lookup]. destruct t as [data|es0]; [done|].
    destruct (assoc n es0) as [c|] eqn:Hn; [|done]. intros Hq.
    cbn [walk]. right. apply list_elem_of_In, in_flat_map.
    exists (n, c). split.
    + by apply list_elem_of_In, assoc_elem.
    + apply list_elem_of_In. cbn [fst snd].
      replace (root ++ n :: q) with ((root ++ [n]) ++ q)
        by by rewrite <- app_assoc.
      by apply IH.
Qed.

(** A reachable entry, split into its directory and its name. *)
Lemma tree_lookup_snoc q n t c :
  tree_lookup (q ++ [n]) t = Some c →
  ∃ es, tree_lookup q t = Some (TDir es) ∧ (n, c) ∈ es.
Proof.
  rewrite tree_lookup_app.
  destruct (tree_lookup q t) as [[data|es]|]; cbn [tree_lookup]; [done| |done].
  destruct (assoc n es) as [c'|] eqn:Hn; [|done].
  intros [= ->]. exists es. split; [done|]. by apply assoc_elem.
Qed.

Lemma tree_lookup_entry p t c :
  p ≠ [] → tree_lookup p t = Some c →
  ∃ es, tree_lookup (Path.parent p) t = Some (TDir es) ∧
        (Path.name p, c) ∈ es.
Proof.
  intros Hp Hlook. apply tree_lookup_snoc.
  assert (p = Path.parent p ++ [Path.name p]) as Heq
    by apply (app_removelast_last [] Hp).
  by rewrite <- Heq.
Qed.

Lemma split_path p : p ≠ [] → p = Path.parent p ++ [Path.name p].
Proof. intros Hp. by apply app_removelast_last. Qed.

Lemma name_of_entry root file : Path.name (root ++ [file]) = file.
Proof. unfold Path.name. apply last_last. Qed.

Lemma rglob_reaches p t c :
  p ≠ [] → tree_lookup p t = Some c → (p, c) ∈ rglob t.
Proof.
  intros Hp Hlook.
  destruct (tree_lookup_entry p t c Hp Hlook) as (es & Hdir & Hin).
  unfold rglob. apply list_elem_of_In, in_flat_map.
  exists (Path.parent p, es). split.
  - apply list_elem_of_In. by apply (walk_reaches _ [] t es).
  - apply list_elem_of_In, list_elem_of_fmap.
    exists (Path.name p, c). split; [|done].
    cbn [fst snd]. by rewrite <- split_path.
Qed.

Lemma find_doc_files_sound input_dir extensions p :
  p ∈ find_doc_files input_dir extensions →
  p ≠ [] ∧ selected extensions (Path.name p) = true.
Proof.
  intros Hp. unfold find_doc_files in Hp.
  apply list_elem_of_In, in_flat_map in Hp as ([root es] & _ & Hp).
  apply list_elem_of_In, list_elem_of_fmap in Hp as (file & -> & Hfile).
  apply list_elem_of_In, filter_In in Hfile as [_ Hsel].
  rewrite name_of_entry. split; [|done]. by destruct root.
Qed.

Lemma find_doc_files_complete input_dir extensions p data :
  p ≠ [] → tree_lookup p input_dir = Some (TFile data) →
  selected extensions (Path.name p) = true →
  p ∈ find_doc_files input_dir extensions.
Proof.
  intros Hp Hlook Hsel.
  destruct (tree_lookup_entry p _ _ Hp Hlook) as (es & Hdir & Hin).
  unfold find_doc_files. apply list_elem_of_In, in_flat_map.
  exists (Path.parent p, es). split.
  - apply list_elem_of_In. by apply (walk_reaches _ [] input_dir es).
  - apply list_elem_of_In, list_elem_of_fmap.
    exists (Path.name p). split; [by apply split_path|].
    apply list_elem_of_In, filter_In. split; [|done].
    unfold files_of. apply in_map_iff. exists (Path.name p, TFile data).
    split; [done|]. apply filter_In. split; [|done].
    by apply list_elem_of_In.
Qed.

(** X10. The scanner returns every file of the input tree, at any depth,
    whose name ends with one of the extensions, and nothing whose name
    does not; with no extension it returns nothing. *)
Theorem scanner_finds_the_selected_files input_dir extensions :
  (∀ p data,
     p ≠ [] → tree_lookup p input_dir = Some (TFile data) →
     selected extensions (Path.name p) = true →
     p ∈ find_doc_files input_dir extensions) ∧
  (∀ p, p ∈ find_doc_files input_dir extensions →
        p ≠ [] ∧ selected extensions (Path.name p) = true) ∧
  find_doc_files input_dir [] = [].
Proof.
  split_and!.
  - apply find_doc_files_complete.
  - apply find_doc_files_sound.
  - destruct (find_doc_files input_dir []) as [|p l] eqn:Hl; [done|].
    destruct (find_doc_files_sound input_dir [] p) as [_ Hsel];
      [rewrite Hl; left|done].
Qed.

Lemma scanner_finds_the_selected_files_witness :
  [u "img"; u "logo.png"] ∈ find_doc_files small_tree [u ".png"] ∧
  selected default_extensions (u "a.md") = true.
Proof.
  destruct (scanner_finds_the_selected_files small_tree [u ".png"])
    as (Hfind & _ & _).
  destruct (scanner_finds_the_selected_files small_tree default_extensions)
    as (_ & Hsel & _).
  split.
  - apply (Hfind [u "img"; u "logo.png"] (u "PNG")).
    + discriminate.
    + reflexivity.
    + reflexivity.
  - apply (Hsel [u "a.md"]). compute_done.
Defined.

(** ** What the mirror step builds *)

Lemma make_dirs_self d p :
  is_file d p = false → make_dirs d p !! p = Some NDir.
Proof.
  intros Hfile.
  assert (is_Some (make_dirs d p !! p)) as [x Hx].
  { unfold make_dirs, Path.ancestors.
    rewrite seq_S, map_app, foldl_app. cbn [map foldl plus].
    rewrite take_ge by done.
    destruct (foldl _ d _ !! p) eqn:Hp; [by rewrite Hp|].
    rewrite lookup_insert_eq. by eexists. }
  rewrite Hx. f_equal. unfold is_file in Hfile.
  destruct (make_dirs_lookup d p p) as [Heq|[_ Hdir]]; [|congruence].
  rewrite Hx in Heq. rewrite <- Heq in Hfile. by destruct x.
Qed.

Lemma ancestors_self p : p ∈ Path.ancestors p.
Proof.
  unfold Path.ancestors. rewrite seq_S, map_app. cbn [map plus].
  rewrite take_ge by done. apply elem_of_app. right. left.
Qed.

Section Mirror.

Context (E : Env).

Lemma sync_entry_built extensions p c w w' :
  sync_entry E extensions (p, c) w = (inr tt, w') →
  match c with
  | TDir _ => dst w' !! p = Some NDir
  | TFile _ => mirrored extensions (Path.name p) = true → is_Some (dst w' !! p)
  end.
Proof.
  destruct c as [data|es]; cbn [sync_entry].
  - intros Hrun Hmir. rewrite Hmir in Hrun. revert Hrun.
    unfold mbind at 1, M_bind at 1, exists_.
    destruct (fault E (OpStat p)); [done|].
    case_bool_decide as Hp; cbn [negb]; [run; by intros [= <-]|].
    run. destruct (mkdir E _ w) as [[e|[]] w1]; [done|].
    unfold copy2. destruct (fault E _); [done|].
    destruct (_ && _); [|done]. intros [= <-].
    cbn. rewrite lookup_insert_eq. by eexists.
  - unfold mkdir. destruct (fault E _); [done|].
    destruct (existsb _ _) eqn:Hfiles; [done|]. intros [= <-].
    cbn. apply make_dirs_self.
    destruct (is_file (dst w) p) eqn:Hp; [|done].
    assert (existsb (is_file (dst w)) (Path.ancestors p) = true) as Hex;
      [|congruence].
    apply existsb_exists. exists p. split; [|done].
    apply list_elem_of_In, ancestors_self.
Qed.


Lemma sync_entries_built extensions l :
  ∀ w w',
    for_each l (sync_entry E extensions) w = (inr tt, w') →
    ∀ p c, (p, c) ∈ l →
      match c with
      | TDir _ => dst w' !! p = Some NDir
      | TFile _ =>
          mirrored extensions (Path.name p) = true → is_Some (dst w' !! p)
      end.
Proof.
  induction l as [|[p0 c0] l IH]; intros w w' Hrun p c Hin.
  - by apply elem_of_nil in Hin.
  - revert Hrun. cbn [for_each]. run.
    destruct (sync_entry E extensions (p0, c0) w) as [[e|[]] w1] eqn:Hstep;
      [done|]. intros Hrest.
    apply elem_of_cons in Hin as [[= -> ->]|Hin]; [|by eapply IH].
    apply sync_entry_built in Hstep.
    apply (for_each_keeps (sync_entry E extensions)) in Hrest.
    2:{ intros x w0 r0 w0'. apply sync_entry_keeps. }
    destruct c0 as [data|es].
    + intros Hmir. eapply lookup_weaken_is_Some; [by apply Hstep|done].
    + by eapply lookup_weaken.
Qed.


End Mirror.

(** X11. When the mirror step returns, the output tree holds every
    directory of the input tree as a directory, and an entry at the path
    of every reachable input file whose suffix is not among the
    extensions. *)
Theorem sync_builds_the_mirror E src_dir extensions w w' p c :
  sync_directories E src_dir extensions w = (inr tt, w') →
  p ≠ [] →
  tree_lookup p src_dir = Some c →
  match c with
  | TDir _ => dst w' !! p = Some NDir
  | TFile _ => mirrored extensions (Path.name p) = true → is_Some (dst w' !! p)
  end.
Proof.
  unfold sync_directories. run. intros Hrun Hp Hlook.
  eapply (sync_entries_built E extensions); [exact Hrun|].
  by apply rglob_reaches.
Qed.

Lemma sync_builds_the_mirror_witness :
  let E := calm (Some small_tree) in
  let w' := (sync_directories E small_tree default_extensions initial).2 in
  dst w' !! [u "img"] = Some NDir ∧
  is_Some (dst w' !! [u "img"; u "logo.png"]).
Proof.
  intros E w'. split.
  - apply (sync_builds_the_mirror E small_tree default_extensions initial w'
             [u "img"] (TDir [(u "logo.png", TFile (u "PNG"))])).
    + reflexivity.
    + discriminate.
    + reflexivity.
  - apply (sync_builds_the_mirror E small_tree default_extensions initial w'
             [u "img"; u "logo.png"] (TFile (u "PNG"))).
    + reflexivity.
    + discriminate.
    + reflexivity.
    + reflexivity.
Defined.



(** X13. Between them the two components leave no input file out: once
    the mirror step has returned, every file reachable in the input tree
    is selected by the scanner for translation or has an entry in the
    output tree. *)
Theorem no_input_file_is_left_out E src_dir extensions w w' p data :
  sync_directories E src_dir extensions w = (inr tt, w') →
  p ≠ [] →
  tree_lookup p src_dir = Some (TFile data) →
  p ∈ find_doc_files src_dir extensions ∨ is_Some (dst w' !! p).
Proof.
  intros Hsync Hp Hlook.
  destruct (mirrored extensions (Path.name p)) eqn:Hmir.
  - right. revert Hsync. unfold sync_directories. run. intros Hrun.
    apply (sync_entries_built E extensions _ _ _ Hrun p (TFile data));
      [by apply rglob_reaches|done].
  - left. eapply find_doc_files_complete; [done|done|].
    by apply not_mirrored_is_selected.
Qed.

Lemma no_input_file_is_left_out_witness :
  let E := calm (Some small_tree) in
  let w' := (sync_directories E small_tree default_extensions initial).2 in
  ([u "a.md"] ∈ find_doc_files small_tree default_extensions
   ∨ is_Some (dst w' !! [u "a.md"])) ∧
  ([u "img"; u "logo.png"] ∈ find_doc_files small_tree default_extensions
   ∨ is_Some (dst w' !! [u "img"; u "logo.png"])).
Proof.
  intros E w'. split.
  - apply (no_input_file_is_left_out E small_tree default_extensions initial
             w' [u "a.md"] (u "hi")); [reflexivity|discriminate|reflexivity].
  - apply (no_input_file_is_left_out E small_tree default_extensions initial
             w' [u "img"; u "logo.png"] (u "PNG"));
      [reflexivity|discriminate|reflexivity].
Defined.



(** ** The two extension tests *)

Lemma endswith_true s p : Str.endswith s p = true → ∃ pre, s = pre ++ p.
Proof.
  unfold Str.endswith. intros H. apply startswith_true in H.
  exists (rev (drop (length (rev p)) (rev s))).
  rewrite <- (rev_involutive s), H at 1.
  by rewrite rev_app_distr, rev_involutive.
Qed.

Lemma rfind_from_absent c s i acc :
  c ∉ s → Path.rfind_from c s i acc = acc.
Proof.
  revert i acc. induction s as [|x s IH]; intros i acc Hc; [done|].
  apply not_elem_of_cons in Hc as [Hx Hs]. cbn [Path.rfind_from].
  rewrite IH by done. by rewrite (proj2 (N.eqb_neq x c)).
Qed.

Lemma rfind_last pre c e :
  c ∉ e → Path.rfind c (pre ++ c :: e) = Z.of_nat (length pre).
Proof.
  intros Hc. unfold Path.rfind.
  assert (∀ i acc, Path.rfind_from c (pre ++ c :: e) i acc
                   = (i + Z.of_nat (length pre))%Z) as Hgen;
    [|by rewrite Hgen].
  induction pre as [|a pre IH]; intros i acc.
  - cbn [app Path.rfind_from]. rewrite N.eqb_refl, rfind_from_absent by done.
    simpl. lia.
  - cbn [app Path.rfind_from]. rewrite IH. cbn [length]. lia.
Qed.

(** X15. With extensions of the usual form (a dot followed by characters
    without a dot) the scanner's test and the synchroniser's test agree on
    every file name that is not itself one of the extensions: the file is
    mirrored exactly when it is not selected. *)
Theorem tests_agree_for_dotted_extensions extensions name :
  (∀ ext, ext ∈ extensions → dotted ext) →
  name ∉ extensions →
  mirrored extensions name = negb (selected extensions name).
Proof.
  intros Hdot Hname.
  destruct (mirrored extensions name) eqn:Hmir.
  2:{ by rewrite (not_mirrored_is_selected _ _ Hmir). }
  destruct (selected extensions name) eqn:Hsel; [|done].
  exfalso. unfold selected in Hsel.
  apply existsb_exists in Hsel as (ext & Hin & Hends).
  apply list_elem_of_In in Hin.
  destruct (Hdot ext Hin) as (e & -> & He & Hnodot).
  apply endswith_true in Hends as [pre ->].
  assert (pre ≠ []) as Hpre by (intros ->; by apply Hname).
  assert (Path.suffix (pre ++ 46%N :: e) = 46%N :: e) as Hsuffix.
  { unfold Path.suffix. rewrite rfind_last by done. cbv zeta.
    assert (0 < length pre) by (destruct pre; [done|simpl; lia]).
    assert (0 < length e) by (destruct e; [done|simpl; lia]).
    rewrite length_app. cbn [length].
    replace ((0 <? Z.of_nat (length pre))%Z) with true
      by (symmetry; apply Z.ltb_lt; lia).
    replace ((Z.of_nat (length pre)
              <? Z.of_nat (length pre + S (length e)) - 1)%Z) with true
      by (symmetry; apply Z.ltb_lt; lia).
    cbn [andb]. by rewrite Nat2Z.id, drop_app_length. }
  unfold mirrored in Hmir. rewrite Hsuffix in Hmir.
  apply negb_true_iff, bool_decide_eq_false in Hmir. by apply Hmir.
Qed.

Lemma tests_agree_for_dotted_extensions_witness :
  mirrored default_extensions (u "notes.v2.md")
  = negb (selected default_extensions (u "notes.v2.md")).
Proof.
  apply tests_agree_for_dotted_extensions.
  - intros ext Hext.
    repeat (apply elem_of_cons in Hext as [->|Hext];
            [eexists; split_and!; [reflexivity|discriminate|compute_done]|]).
    by apply elem_of_nil in Hext.
  - compute_done.
Defined.

(** ** Every interleaving of the progress logger *)

Lemma tally_insert f ts i t t' :
  ts !! i = Some t →
  tally f (<[i := t']> ts) + (if f t then 1 else 0)
  = tally f ts + (if f t' then 1 else 0).
Proof.
  unfold tally. revert i. induction ts as [|a ts IH]; intros i Hi; [done|].
  destruct i as [|i].
  - injection Hi as ->. cbn [insert list_insert List.filter].
    destruct (f t), (f t'); cbn [length]; lia.
  - cbn [lookup list_lookup] in Hi. specialize (IH i Hi).
    cbn [insert list_insert List.filter].
    destruct (f a); cbn [length plus]; [f_equal|]; exact IH.
Qed.

Lemma tally_le_length f ts : tally f ts ≤ length ts.
Proof. unfold tally. apply List.filter_length_le. Qed.

Lemma schedule_inv_start b cs w :
  _index w = b → schedule_inv b (progress_indices (logs w)) (start cs) w.
Proof.
  intros Hb. unfold schedule_inv. cbv zeta.
  assert (∀ f, (∀ c, f (c, AtRead) = false) → tally f (start cs) = 0)
    as Hzero.
  { intros f Hf. unfold tally, start.
    induction cs as [|c cs IH]; [done|]. cbn. by rewrite Hf. }
  rewrite (Hzero wrote) by done.
  refine (conj _ (conj _ (conj _ _))); [lia|lia| |].
  - unfold start. apply Forall_fmap, Forall_true. done.
  - exists []. rewrite app_nil_r, (Hzero returned) by done. done.
Qed.

Lemma schedule_inv_step b base ts w i t :
  schedule_inv b base ts w →
  ts !! i = Some t →
  schedule_inv b base (<[i := (step t w).1]> ts) (step t w).2.
Proof.
  intros (Hidx & Hlow & Hreads & emitted & Hlogs & Hlen & Hbound) Hi.
  pose proof (tally_insert wrote ts i t (step t w).1 Hi) as Hw.
  pose proof (tally_insert returned ts i t (step t w).1 Hi) as Hr.
  pose proof (proj1 (Forall_lookup _ _) Hreads i t Hi) as Ht.
  destruct t as [c k]. unfold schedule_inv. cbv zeta.
  destruct k as [|tmp| |]; cbn [step fst snd] in *;
    repeat match type of Hw with
           | context [if wrote ?t then _ else _] =>
               let v := eval cbv in (wrote t) in
               change (wrote t) with v in Hw
           end;
    repeat match type of Hr with
           | context [if returned ?t then _ else _] =>
               let v := eval cbv in (returned t) in
               change (returned t) with v in Hr
           end;
    cbv iota in Hw, Hr.
  - (* the read *)
    replace (tally wrote (<[i:=(c, AtWrite (_index w))]> ts))
      with (tally wrote ts) by lia.
    refine (conj _ (conj _ (conj _ _))); [done|done| |].
    + apply Forall_insert; [done|]. cbn. lia.
    + exists emitted. split_and!; [done|lia|done].
  - (* the store *)
    replace (tally wrote (<[i:=(c, AtEmit)]> ts))
      with (S (tally wrote ts)) by lia.
    cbn [_index set_index logs].
    refine (conj _ (conj _ (conj _ _))); [lia|lia| |].
    + apply Forall_insert; [|done].
      eapply Forall_impl; [exact Hreads|].
      intros [c' k']. cbn. destruct k'; [done| |done|done]. lia.
    + exists emitted. split_and!; [done|lia|].
      eapply Forall_impl; [exact Hbound|]. intros j. cbn. lia.
  - (* the log line *)
    replace (tally wrote (<[i:=(c, Returned)]> ts))
      with (tally wrote ts) by lia.
    assert (0 < tally wrote ts).
    { pose proof (tally_insert wrote ts i (c, AtEmit) (c, AtEmit) Hi).
      unfold tally in *. apply list_elem_of_lookup_2 in Hi.
      assert ((c, AtEmit) ∈ List.filter wrote ts) as Hin.
      { apply list_elem_of_In, filter_In. split; [by apply list_elem_of_In|done]. }
      destruct (List.filter wrote ts); [by apply elem_of_nil in Hin|simpl; lia]. }
    cbn [_index add_log logs].
    refine (conj _ (conj _ (conj _ _))); [done|done| |].
    + apply Forall_insert; [done|]. done.
    + exists (emitted ++ [_index w]). split_and!.
      * by rewrite progress_indices_snoc, Hlogs, app_assoc.
      * rewrite length_app. cbn [length]. lia.
      * apply Forall_app. split; [done|]. repeat constructor; lia.
  - (* a call that has returned does not move *)
    rewrite list_insert_id by done.
    refine (conj _ (conj _ (conj _ _))); [done|done|done|].
    by exists emitted.
Qed.

Lemma schedule_inv_run b base sched :
  ∀ ts w,
    schedule_inv b base ts w →
    schedule_inv b base (run_schedule sched ts w).1 (run_schedule sched ts w).2 ∧
    length (run_schedule sched ts w).1 = length ts.
Proof.
  induction sched as [|i sched IH]; intros ts w Hinv; [done|].
  cbn [run_schedule]. destruct (ts !! i) as [t|] eqn:Hi; [|by apply IH].
  pose proof (schedule_inv_step b base ts w i t Hinv Hi) as Hstep.
  destruct (step t w) as [t' w1]. cbn [fst snd] in Hstep.
  destruct (IH _ _ Hstep) as [Hrun Hlen]. split; [done|].
  by rewrite Hlen, length_insert.
Qed.

(** X16. Whatever the interleaving of N calls of [log_translate_progress]
    on a counter that starts at 0: every call that has returned has
    logged exactly one progress line, every index logged lies between 1
    and N, and the counter ends between 0 and N.  Indices may repeat, but
    none is 0 and none exceeds the number of items. *)
Theorem any_interleaving_logs_within_bounds (cs : list call) sched w :
  _index w = 0%Z →
  ∃ emitted,
    progress_indices (logs (run_schedule sched (start cs) w).2)
      = progress_indices (logs w) ++ emitted ∧
    length emitted = tally returned (run_schedule sched (start cs) w).1 ∧
    Forall (λ i, (1 ≤ i ≤ Z.of_nat (length cs))%Z) emitted ∧
    (0 ≤ _index (run_schedule sched (start cs) w).2 ≤ Z.of_nat (length cs))%Z.
Proof.
  intros Hzero.
  destruct (schedule_inv_run 0 (progress_indices (logs w)) sched (start cs) w)
    as [(Hidx & _ & _ & emitted & Hlogs & Hlen & Hbound) Hsize].
  { by apply schedule_inv_start. }
  pose proof (tally_le_length wrote (run_schedule sched (start cs) w).1) as Hle.
  assert (length (start cs) = length cs) as Hstart
    by (unfold start; apply length_map).
  rewrite Hstart in Hsize.
  exists emitted. refine (conj _ (conj _ (conj _ _))); [done|done| |lia].
  eapply Forall_impl; [exact Hbound|]. intros i. cbn. lia.
Qed.

Lemma any_interleaving_logs_within_bounds_witness :
  let cs := [mkCall INFO 2 (MsgTranslated (u "a.md"));
             mkCall INFO 2 (MsgTranslated (u "b.md"))] in
  ∃ emitted,
    progress_indices (logs (run_schedule [0; 1; 0; 1; 0] (start cs) initial).2)
      = emitted ∧
    length emitted = 1 ∧
    Forall (λ i, (1 ≤ i ≤ 2)%Z) emitted.
Proof.
  intros cs.
  destruct (any_interleaving_logs_within_bounds cs [0; 1; 0; 1; 0] initial)
    as (emitted & Hlogs & Hlen & Hbound & _).
  - reflexivity.
  - exists emitted. split_and!; [exact Hlogs|exact Hlen|exact Hbound].
Defined.

(** ** The parse, both ways *)

(** X17. The parse succeeds exactly when the cleaned response holds a
    separator, and what it returns is then what follows the first one:
    [decode] answers [body] if and only if the cleaning succeeds on a text
    that splits, at the first occurrence of the separator, into some
    header and [body]. *)
Theorem decode_characterised response_text body :
  decode response_text = inr body ↔
  ∃ cleaned header,
    clean response_text = inr cleaned ∧
    first_occurrence separator cleaned header body.
Proof.
  split.
  - unfold decode. destruct (clean response_text) as [e|cleaned]; [done|].
    unfold unpack_body, Str.split1.
    destruct (Str.find_split separator cleaned) as [[h t]|] eqn:Hf; [|done].
    intros [= <-]. exists cleaned, h. split; [done|].
    by apply find_split_first_occurrence.
  - intros (cleaned & header & Hclean & Hfirst).
    rewrite (decode_clean _ _ Hclean).
    apply unpack_body_found with header.
    by apply first_occurrence_find_split.
Qed.

(** ** What a run writes *)

Section Written.

Context (E : Env).






End Written.



